(** * Ophthalmologist compensation calculator: the calculation engine of app.py

    The program is a Streamlit page.  Its logic is the function
    [calculate_compensation] (app.py, lines 23-90), which evaluates three
    "base salary plus bonus over a threshold" formulas on one net-collections
    value, and the loop of lines 251-263, which evaluates that function on the
    100 samples of [np.linspace(100000, 3000000, 100)] to draw the comparison
    chart.

    All arithmetic of the program is Python float arithmetic, that is IEEE 754
    binary64 with rounding to nearest, ties to even.  The development has three
    layers:

    - [Binary64]: binary64 values and the correctly rounded operations on
      them, as executable functions on rationals, with the facts about
      rounding the proofs rest on (it is monotone and fixes the binary64
      numbers); [Conformance] runs them against Rocq's primitive floats;
    - [Python]: the Python operators the source uses ([*], [-], [+], [/],
      [>], [max], [d[key]]), with the exceptions [/] and [d[key]] can raise;
      [Numpy]: [np.linspace];
    - [App]: [calculate_compensation] and the loop that builds
      [comparison_data]; [Spec]: the operation [compute] as the
      specification words it; [Properties]: the theorems; [Reference]: the
      formula on primitive floats, run against the model.

    The rest of the page follows: [Engine] has more properties of
    [calculate_compensation], [Chart] the curves of the sweep, [Integers] the
    ints the program pairs with floats, [Range] the ends of [np.linspace],
    [Marker] the points the loop of lines 336-348 adds to the chart, [Sidebar]
    the ranges of the input widgets (lines 96-190), and [Display] the texts
    of the amounts ([display_formula], lines 223-245). *)

From Stdlib Require Import ZArith NArith QArith Qround Qabs Qpower Lia Lqa Bool List
  Ascii String.
From Stdlib Require PrimFloat FloatOps SpecFloat.
Import ListNotations.

Local Open Scope Q_scope.

(** ** Binary64 arithmetic *)

Module Binary64.

(** Powers of two with an integer exponent. *)
Definition pow2 (e : Z) : Q := 2 ^ e.

(** Rounding of a rational to the nearest integer, ties to the even one. *)
Definition rhe (q : Q) : Z :=
  let f := Qfloor q in
  match Qcompare (q - inject_Z f) (1 # 2) with
  | Lt => f
  | Gt => (f + 1)%Z
  | Eq => if Z.even f then f else (f + 1)%Z
  end.

(** [flog2 q], for [0 < q], is the integer [e] with [2^e <= q < 2^(e+1)]. *)
Definition flog2 (q : Q) : Z :=
  let k := (Z.log2 (Qnum q) - Z.log2 (Zpos (Qden q)))%Z in
  if Qle_bool (pow2 k) q then k else (k - 1)%Z.

(** Precision (53 bits) and the exponent of the least subnormal (2^-1074);
    2^1024 is the first power of two that is out of range. *)
Definition prec : Z := 53.
Definition emin : Z := -1074.
Definition emax : Z := 1024.

(** The exponent of the unit in the last place of the binade of [q]. *)
Definition cexp (q : Q) : Z := Z.max (flog2 (Qabs q) - (prec - 1)) emin.

(** The significand of [q] as a rational number of units in the last place. *)
Definition scaled (q : Q) : Q := q * pow2 (- cexp q).

(** Rounding to the nearest binary64 number, exponent unbounded above. *)
Definition round64u (q : Q) : Q := inject_Z (rhe (scaled q)) * pow2 (cexp q).

(** A binary64 datum: a finite number, an infinity or a NaN.  A finite
    number is kept as the rational it denotes, in lowest terms.  The two
    zeros of the format are one value here: they are equal under every
    comparison, and the program never divides by a zero nor takes a sign. *)
Inductive float : Type :=
  | Fin (q : Q)
  | PInf
  | NInf
  | NaN.

(** Rounding to binary64: a result of magnitude [2^1024] or more overflows
    to an infinity. *)
Definition round64 (q : Q) : float :=
  let r := Qred (round64u q) in
  if Qle_bool (pow2 emax) r then PInf
  else if Qle_bool r (- pow2 emax) then NInf
  else Fin r.

Definition Qlt_bool (a b : Q) : bool := negb (Qle_bool b a).

(** Structural equality of two fractions. *)
Definition Qsame (a b : Q) : bool :=
  Z.eqb (Qnum a) (Qnum b) && Pos.eqb (Qden a) (Qden b).

(** [is_f64 q]: the fraction [q] is in lowest terms and denotes a finite
    binary64 number. *)
Definition is_f64 (q : Q) : bool :=
  Qsame (Qred q) q && Qeq_bool (round64u q) q && Qlt_bool (Qabs q) (pow2 emax).

(** Finite binary64 numbers, and binary64 data in general. *)
Definition finite (x : float) : bool :=
  match x with Fin q => is_f64 q | _ => false end.

Definition wf (x : float) : bool :=
  match x with Fin q => is_f64 q | _ => true end.

(** The float of an integer literal. *)
Definition of_Z (z : Z) : float := round64 (inject_Z z).

Definition fneg (x : float) : float :=
  match x with
  | Fin q => Fin (- q)
  | PInf => NInf
  | NInf => PInf
  | NaN => NaN
  end.

Definition fadd (x y : float) : float :=
  match x, y with
  | NaN, _ | _, NaN => NaN
  | PInf, NInf | NInf, PInf => NaN
  | PInf, _ | _, PInf => PInf
  | NInf, _ | _, NInf => NInf
  | Fin a, Fin b => round64 (a + b)
  end.

Definition fsub (x y : float) : float := fadd x (fneg y).

(** The infinity of the sign of [a * b], for [a] and [b] other than zero. *)
Definition inf_of_sign (neg : bool) : float := if neg then NInf else PInf.

Definition is_neg (x : float) : bool :=
  match x with
  | Fin q => Qlt_bool q 0
  | NInf => true
  | _ => false
  end.

Definition is_zero (x : float) : bool :=
  match x with Fin q => Qeq_bool q 0 | _ => false end.

Definition fmul (x y : float) : float :=
  match x, y with
  | NaN, _ | _, NaN => NaN
  | Fin a, Fin b => round64 (a * b)
  | _, _ =>
      if is_zero x || is_zero y then NaN
      else inf_of_sign (xorb (is_neg x) (is_neg y))
  end.

(** Division; [None] when the divisor is a zero, where IEEE 754 decides by
    the sign of the zero and Python raises before dividing. *)
Definition fdiv (x y : float) : option float :=
  if is_zero y then None
  else
    Some
      match x, y with
      | NaN, _ | _, NaN => NaN
      | Fin a, Fin b => round64 (a / b)
      | Fin _, _ => Fin 0
      | _, Fin _ => inf_of_sign (xorb (is_neg x) (is_neg y))
      | _, _ => NaN
      end.

(** The comparisons; each is false when an operand is a NaN. *)
Definition fle (x y : float) : bool :=
  match x, y with
  | NaN, _ | _, NaN => false
  | Fin a, Fin b => Qle_bool a b
  | NInf, _ | _, PInf => true
  | _, _ => false
  end.

Definition flt (x y : float) : bool :=
  match x, y with
  | NaN, _ | _, NaN => false
  | Fin a, Fin b => Qlt_bool a b
  | NInf, NInf | PInf, PInf => false
  | NInf, _ | _, PInf => true
  | _, _ => false
  end.

Definition fgt (x y : float) : bool := flt y x.
Definition fge (x y : float) : bool := fle y x.

(** *** Powers of two *)

Lemma pow2_pos (e : Z) : 0 < pow2 e.
Proof. apply Qpower_0_lt. reflexivity. Qed.

Lemma pow2_add (a b : Z) : pow2 (a + b) == pow2 a * pow2 b.
Proof. apply Qpower_plus. discriminate. Qed.

Lemma pow2_le (a b : Z) : (a <= b)%Z -> pow2 a <= pow2 b.
Proof. intros H. apply Qpower_le_compat_l; [exact H | discriminate]. Qed.

Lemma pow2_lt (a b : Z) : (a < b)%Z -> pow2 a < pow2 b.
Proof. intros H. apply Qpower_lt_compat_l; [exact H | reflexivity]. Qed.

Lemma pow2_lt_inv (a b : Z) : pow2 a < pow2 b -> (a < b)%Z.
Proof. intros H. apply (Qpower_lt_compat_l_inv 2); [exact H | reflexivity]. Qed.

Lemma pow2_cancel (a : Z) : pow2 (- a) * pow2 a == 1.
Proof. rewrite <- pow2_add. replace (- a + a)%Z with 0%Z by lia. reflexivity. Qed.

Lemma pow2_Z (a : Z) : (0 <= a)%Z -> pow2 a == inject_Z (2 ^ a).
Proof. intros H. unfold pow2. rewrite Zpower_Qpower by exact H. reflexivity. Qed.

(** *** Rounding to the nearest integer *)

Lemma rhe_bounds (q : Q) : (Qfloor q <= rhe q <= Qfloor q + 1)%Z.
Proof.
  unfold rhe. destruct (Qcompare _ _); [destruct (Z.even _) | |]; lia.
Qed.

Lemma rhe_Z (z : Z) : rhe (inject_Z z) = z.
Proof.
  unfold rhe. rewrite Qfloor_Z.
  assert (E : inject_Z z - inject_Z z == 0) by ring.
  rewrite E. reflexivity.
Qed.

Lemma rhe_le (x y : Q) : x <= y -> (rhe x <= rhe y)%Z.
Proof.
  intros H.
  pose proof (Qfloor_resp_le _ _ H) as Hf.
  destruct (Z.eq_dec (Qfloor x) (Qfloor y)) as [E | N].
  - unfold rhe. rewrite <- E.
    destruct (Qcompare_spec (x - inject_Z (Qfloor x)) (1 # 2)) as [Hx | Hx | Hx];
      destruct (Qcompare_spec (y - inject_Z (Qfloor x)) (1 # 2)) as [Hy | Hy | Hy];
      try (destruct (Z.even (Qfloor x))); try lia; exfalso; lra.
  - pose proof (rhe_bounds x). pose proof (rhe_bounds y). lia.
Qed.

Lemma rhe_comp (x y : Q) : x == y -> rhe x = rhe y.
Proof.
  intros H. apply Z.le_antisymm; apply rhe_le; rewrite H; apply Qle_refl.
Qed.

Lemma rhe_le_Z (x : Q) (z : Z) : x <= inject_Z z -> (rhe x <= z)%Z.
Proof. intros H. rewrite <- (rhe_Z z). apply rhe_le, H. Qed.

Lemma rhe_ge_Z (x : Q) (z : Z) : inject_Z z <= x -> (z <= rhe x)%Z.
Proof. intros H. rewrite <- (rhe_Z z). apply rhe_le, H. Qed.

(** *** The binary logarithm *)

Lemma flog2_spec (q : Q) : 0 < q -> pow2 (flog2 q) <= q < pow2 (flog2 q + 1).
Proof.
  intros Hq. destruct q as [n d]. unfold flog2. cbn [Qnum Qden].
  assert (Hn : (0 < n)%Z) by (unfold Qlt in Hq; cbn in Hq; lia).
  set (a := Z.log2 n). set (b := Z.log2 (Zpos d)).
  pose proof (Z.log2_spec n Hn) as [Ha1 Ha2]. fold a in Ha1, Ha2.
  pose proof (Z.log2_spec (Zpos d) (Pos2Z.is_pos d)) as [Hb1 Hb2]. fold b in Hb1, Hb2.
  assert (Ha0 : (0 <= a)%Z) by apply Z.log2_nonneg.
  assert (Hb0 : (0 <= b)%Z) by apply Z.log2_nonneg.
  assert (Hd : 0 < inject_Z (Zpos d)) by reflexivity.
  assert (Hnd : (n # d) * inject_Z (Zpos d) == inject_Z n).
  { unfold Qeq, Qmult, inject_Z. cbn. rewrite Pos.mul_1_r. ring. }
  assert (Qa1 : pow2 a <= inject_Z n) by (rewrite pow2_Z by lia; rewrite <- Zle_Qle; exact Ha1).
  assert (Qa2 : inject_Z n < pow2 (a + 1)).
  { rewrite pow2_Z by lia. rewrite <- Zlt_Qlt. exact Ha2. }
  assert (Qb1 : pow2 b <= inject_Z (Zpos d)) by (rewrite pow2_Z by lia; rewrite <- Zle_Qle; exact Hb1).
  assert (Qb2 : inject_Z (Zpos d) < pow2 (b + 1)).
  { rewrite pow2_Z by lia. rewrite <- Zlt_Qlt. exact Hb2. }
  destruct (Qle_bool (pow2 (a - b)) (n # d)) eqn:E.
  - apply Qle_bool_iff in E. split; [exact E |].
    apply (Qmult_lt_r _ _ (inject_Z (Zpos d)) Hd). rewrite Hnd.
    apply Qlt_le_trans with (1 := Qa2).
    replace (a + 1)%Z with ((a - b + 1) + b)%Z by lia. rewrite pow2_add.
    apply Qmult_le_l; [apply pow2_pos | exact Qb1].
  - assert (E' : ~ pow2 (a - b) <= n # d) by (intros C; apply Qle_bool_iff in C; congruence).
    apply Qnot_le_lt in E'. replace (a - b - 1 + 1)%Z with (a - b)%Z by lia.
    split; [| exact E'].
    apply (Qmult_le_r _ _ (inject_Z (Zpos d)) Hd). rewrite Hnd.
    apply Qle_trans with (2 := Qa1).
    replace a with ((a - b - 1) + (b + 1))%Z at 2 by lia. rewrite pow2_add.
    apply Qmult_le_l; [apply pow2_pos | apply Qlt_le_weak, Qb2].
Qed.

Lemma flog2_unique (q : Q) (e : Z) : pow2 e <= q < pow2 (e + 1) -> flog2 q = e.
Proof.
  intros [H1 H2].
  assert (Hq : 0 < q) by (apply Qlt_le_trans with (2 := H1), pow2_pos).
  destruct (flog2_spec q Hq) as [F1 F2].
  assert (A : (e < flog2 q + 1)%Z) by (apply pow2_lt_inv; lra).
  assert (B : (flog2 q < e + 1)%Z) by (apply pow2_lt_inv; lra).
  lia.
Qed.

Lemma flog2_le (x y : Q) : 0 < x -> x <= y -> (flog2 x <= flog2 y)%Z.
Proof.
  intros Hx Hxy.
  destruct (flog2_spec x Hx) as [X1 _].
  destruct (flog2_spec y) as [_ Y2]; [lra |].
  assert (A : (flog2 x < flog2 y + 1)%Z) by (apply pow2_lt_inv; lra).
  lia.
Qed.

Lemma flog2_comp (x y : Q) : 0 < x -> x == y -> flog2 x = flog2 y.
Proof.
  intros Hx E.
  assert (Hy : 0 < y) by (rewrite <- E; exact Hx).
  apply Z.le_antisymm; apply flog2_le; try assumption; rewrite E; apply Qle_refl.
Qed.

(** [rhe q] is an integer nearest to [q], and the even one of the two when
    [q] is half-way; this determines it. *)
Lemma rhe_near (q : Q) : - (1 # 2) <= q - inject_Z (rhe q) <= 1 # 2.
Proof.
  unfold rhe. pose proof (Qfloor_le q) as L. pose proof (Qlt_floor q) as U.
  rewrite inject_Z_plus in U. change (inject_Z 1) with 1 in U.
  destruct (Qcompare_spec (q - inject_Z (Qfloor q)) (1 # 2)) as [H | H | H].
  - destruct (Z.even (Qfloor q)); rewrite ?inject_Z_plus; change (inject_Z 1) with 1; lra.
  - lra.
  - rewrite inject_Z_plus. change (inject_Z 1) with 1. lra.
Qed.

Lemma rhe_tie (q : Q) :
  q - inject_Z (rhe q) == 1 # 2 \/ q - inject_Z (rhe q) == - (1 # 2) -> Z.even (rhe q) = true.
Proof.
  unfold rhe. pose proof (Qfloor_le q) as L. pose proof (Qlt_floor q) as U.
  rewrite inject_Z_plus in U. change (inject_Z 1) with 1 in U.
  destruct (Qcompare_spec (q - inject_Z (Qfloor q)) (1 # 2)) as [H | H | H].
  - destruct (Z.even (Qfloor q)) eqn:E; [intros _; exact E |].
    intros _. rewrite Z.even_add, E. reflexivity.
  - intros [T | T]; exfalso; lra.
  - rewrite inject_Z_plus. change (inject_Z 1) with 1. intros [T | T]; exfalso; lra.
Qed.

Lemma rhe_unique (q : Q) (z : Z) :
  - (1 # 2) <= q - inject_Z z <= 1 # 2 ->
  (q - inject_Z z == 1 # 2 \/ q - inject_Z z == - (1 # 2) -> Z.even z = true) ->
  rhe q = z.
Proof.
  intros Hz Tz. pose proof (rhe_near q) as Hr. pose proof (rhe_tie q) as Tr.
  assert (Im : inject_Z (z - 1) == inject_Z z - 1).
  { unfold Z.sub. rewrite inject_Z_plus. reflexivity. }
  assert (Ip : inject_Z (z + 1) == inject_Z z + 1).
  { rewrite inject_Z_plus. reflexivity. }
  assert (D : (z - 1 <= rhe q <= z + 1)%Z).
  { split; rewrite Zle_Qle; rewrite ?Im, ?Ip; lra. }
  destruct (Z.eq_dec (rhe q) z) as [E | N]; [exact E | exfalso].
  assert (C : rhe q = (z - 1)%Z \/ rhe q = (z + 1)%Z) by lia.
  destruct C as [C | C]; rewrite C in Hr, Tr.
  - rewrite Im in Hr, Tr.
    assert (Ez : Z.even z = true) by (apply Tz; right; lra).
    assert (Er : Z.even (z - 1) = true) by (apply Tr; left; lra).
    rewrite Z.even_sub, Ez in Er. discriminate.
  - rewrite Ip in Hr, Tr.
    assert (Ez : Z.even z = true) by (apply Tz; left; lra).
    assert (Er : Z.even (z + 1) = true) by (apply Tr; right; lra).
    rewrite Z.even_add, Ez in Er. discriminate.
Qed.

Lemma rhe_opp (q : Q) : rhe (- q) = (- rhe q)%Z.
Proof.
  pose proof (rhe_near q) as Hr. pose proof (rhe_tie q) as Tr.
  apply rhe_unique.
  - rewrite inject_Z_opp. lra.
  - rewrite inject_Z_opp, Z.even_opp. intros [T | T]; apply Tr; [right | left]; lra.
Qed.

(** *** Rounding to binary64, exponent unbounded above *)

Lemma cexp_ge_emin (q : Q) : (emin <= cexp q)%Z.
Proof. unfold cexp. lia. Qed.

Lemma cexp_comp (x y : Q) : ~ x == 0 -> x == y -> cexp x = cexp y.
Proof.
  intros Hx E. unfold cexp. f_equal. f_equal. apply flog2_comp.
  - revert Hx. apply Qabs_case; intros; lra.
  - rewrite E. reflexivity.
Qed.

Lemma cexp_opp (q : Q) : cexp (- q) = cexp q.
Proof. destruct q as [n d]. unfold cexp, Qabs, Qopp. cbn. rewrite Z.abs_opp. reflexivity. Qed.

Lemma scaled_cancel (q : Q) : scaled q * pow2 (cexp q) == q.
Proof. unfold scaled. rewrite <- Qmult_assoc, pow2_cancel. ring. Qed.

Lemma scaled_zero (q : Q) : q == 0 -> scaled q == 0.
Proof.
  intros H. unfold scaled. transitivity (0 * pow2 (- cexp q)); [| ring].
  apply Qmult_comp; [exact H | reflexivity].
Qed.

Lemma round64u_zero (q : Q) : q == 0 -> round64u q == 0.
Proof.
  intros H. unfold round64u. rewrite (rhe_comp _ 0 (scaled_zero q H)).
  change (rhe 0) with (rhe (inject_Z 0)). rewrite rhe_Z. ring.
Qed.

Lemma round64u_comp (x y : Q) : x == y -> round64u x == round64u y.
Proof.
  intros E. destruct (Qeq_dec x 0) as [Z | N].
  - rewrite (round64u_zero x Z), (round64u_zero y); [reflexivity | rewrite <- E; exact Z].
  - unfold round64u, scaled. rewrite <- (cexp_comp x y N E).
    rewrite (rhe_comp (x * pow2 (- cexp x)) (y * pow2 (- cexp x))); [reflexivity |].
    apply Qmult_comp; [exact E | reflexivity].
Qed.

Lemma round64u_opp (q : Q) : round64u (- q) == - round64u q.
Proof.
  unfold round64u, scaled. rewrite cexp_opp.
  rewrite (rhe_comp (- q * pow2 (- cexp q)) (- (q * pow2 (- cexp q)))) by ring.
  rewrite rhe_opp, inject_Z_opp. ring.
Qed.

(** A multiple of the unit in the last place of [x] that bounds [x] bounds
    its rounding too. *)
Lemma round64u_le_grid (x : Q) (z : Z) :
  x <= inject_Z z * pow2 (cexp x) -> round64u x <= inject_Z z * pow2 (cexp x).
Proof.
  intros H. unfold round64u. apply Qmult_le_compat_r; [| apply Qlt_le_weak, pow2_pos].
  rewrite <- Zle_Qle. apply rhe_le_Z.
  apply (Qmult_le_r _ _ (pow2 (cexp x)) (pow2_pos _)). rewrite scaled_cancel. exact H.
Qed.

Lemma round64u_ge_grid (x : Q) (z : Z) :
  inject_Z z * pow2 (cexp x) <= x -> inject_Z z * pow2 (cexp x) <= round64u x.
Proof.
  intros H. unfold round64u. apply Qmult_le_compat_r; [| apply Qlt_le_weak, pow2_pos].
  rewrite <- Zle_Qle. apply rhe_ge_Z.
  apply (Qmult_le_r _ _ (pow2 (cexp x)) (pow2_pos _)). rewrite scaled_cancel. exact H.
Qed.

Lemma round64u_nonneg (x : Q) : 0 <= x -> 0 <= round64u x.
Proof.
  intros H. pose proof (round64u_ge_grid x 0) as G.
  assert (E : inject_Z 0 * pow2 (cexp x) == 0) by ring.
  rewrite E in G. apply G, H.
Qed.

Lemma round64u_nonpos (x : Q) : x <= 0 -> round64u x <= 0.
Proof.
  intros H. pose proof (round64u_le_grid x 0) as G.
  assert (E : inject_Z 0 * pow2 (cexp x) == 0) by ring.
  rewrite E in G. apply G, H.
Qed.

Lemma cexp_pos (x : Q) : 0 < x -> cexp x = Z.max (flog2 x - (prec - 1)) emin.
Proof.
  intros H. unfold cexp. f_equal. f_equal. apply flog2_comp.
  - apply Qabs_case; intros; lra.
  - apply Qabs_pos. lra.
Qed.

(** A power of two, seen as a multiple of a smaller one. *)
Lemma pow2_grid (e c : Z) : (c <= e)%Z -> pow2 e == inject_Z (2 ^ (e - c)) * pow2 c.
Proof.
  intros H. rewrite <- pow2_Z by lia. rewrite <- pow2_add.
  replace (e - c + c)%Z with e by lia. reflexivity.
Qed.

(** Rounding is monotone: first on positive numbers, where two numbers
    either share their unit in the last place or are separated by a power
    of two, then everywhere by symmetry. *)
Lemma round64u_le_pos (x y : Q) : 0 < x -> x <= y -> round64u x <= round64u y.
Proof.
  intros Hx Hxy. assert (Hy : 0 < y) by lra.
  pose proof (flog2_le x y Hx Hxy) as Hf.
  pose proof (cexp_pos x Hx) as Ex. pose proof (cexp_pos y Hy) as Ey.
  destruct (flog2_spec x Hx) as [_ X2]. destruct (flog2_spec y Hy) as [Y1 _].
  destruct (Z.eq_dec (cexp x) (cexp y)) as [E | N].
  - unfold round64u. rewrite <- E.
    apply Qmult_le_compat_r; [| apply Qlt_le_weak, pow2_pos].
    rewrite <- Zle_Qle. apply rhe_le. unfold scaled. rewrite <- E.
    apply Qmult_le_compat_r; [exact Hxy | apply Qlt_le_weak, pow2_pos].
  - unfold prec, emin in Ex, Ey.
    assert (Cy : cexp y = (flog2 y - 52)%Z) by lia.
    assert (Fxy : (flog2 x + 1 <= flog2 y)%Z) by lia.
    apply Qle_trans with (pow2 (flog2 y)).
    + rewrite (pow2_grid (flog2 y) (cexp x)) by lia.
      apply round64u_le_grid. rewrite <- pow2_grid by lia.
      pose proof (pow2_le _ _ Fxy). lra.
    + rewrite (pow2_grid (flog2 y) (cexp y)) by lia.
      apply round64u_ge_grid. rewrite <- pow2_grid by lia. exact Y1.
Qed.

Lemma round64u_le (x y : Q) : x <= y -> round64u x <= round64u y.
Proof.
  intros H. destruct (Qlt_le_dec 0 x) as [Px | Nx].
  - apply round64u_le_pos; assumption.
  - destruct (Qlt_le_dec y 0) as [Ny | Py].
    + assert (L : round64u (- y) <= round64u (- x)) by (apply round64u_le_pos; lra).
      rewrite 2 round64u_opp in L. lra.
    + pose proof (round64u_nonpos x Nx). pose proof (round64u_nonneg y Py). lra.
Qed.

(** A number that is a multiple of its own unit in the last place is its
    own rounding. *)
Lemma round64u_on_grid (x : Q) (z : Z) :
  x == inject_Z z * pow2 (cexp x) -> round64u x == x.
Proof.
  intros E. apply Qle_antisym.
  - rewrite E at 2. apply round64u_le_grid. rewrite <- E. apply Qle_refl.
  - rewrite E at 1. apply round64u_ge_grid. rewrite <- E. apply Qle_refl.
Qed.

(** The numbers [z * 2^c] with a significand [z] of at most 53 bits, and an
    exponent [c] that is the least one when [z] has fewer than 53 bits, are
    fixed by rounding.  ([z = 2^53] is the case of a significand rounded up
    to the next binade.) *)
Lemma round64u_fix (z c : Z) :
  (emin <= c)%Z -> (0 < z <= 2 ^ 53)%Z -> ((z < 2 ^ 52)%Z -> c = emin) ->
  round64u (inject_Z z * pow2 c) == inject_Z z * pow2 c.
Proof.
  intros Hc [Hz0 Hz1] Hsub.
  set (r := inject_Z z * pow2 c).
  assert (Hr : 0 < r).
  { unfold r. apply Qmult_lt_0_compat; [| apply pow2_pos]. rewrite Zlt_Qlt in Hz0. exact Hz0. }
  destruct (Z.log2_spec z Hz0) as [L1 L2]. set (l := Z.log2 z) in *.
  assert (Hl0 : (0 <= l)%Z) by apply Z.log2_nonneg.
  assert (Hl53 : (l <= 53)%Z).
  { destruct (Z.le_gt_cases l 53) as [H | H]; [exact H | exfalso].
    assert (P : (2 ^ 54 <= 2 ^ l)%Z) by (apply Z.pow_le_mono_r; lia).
    assert (Q : (2 ^ 53 < 2 ^ 54)%Z) by reflexivity. lia. }
  assert (F : flog2 r = (l + c)%Z).
  { apply flog2_unique. unfold r. split.
    - rewrite pow2_add. apply Qmult_le_compat_r; [| apply Qlt_le_weak, pow2_pos].
      rewrite pow2_Z by lia. rewrite <- Zle_Qle. exact L1.
    - replace (l + c + 1)%Z with ((l + 1) + c)%Z by lia. rewrite pow2_add.
      apply Qmult_lt_r; [apply pow2_pos |].
      rewrite pow2_Z by lia. rewrite <- Zlt_Qlt. exact L2. }
  pose proof (cexp_pos r Hr) as C. rewrite F in C. unfold prec in C.
  destruct (Z.eq_dec l 53) as [E53 | N53].
  - assert (Ez : z = (2 ^ 53)%Z).
    { apply Z.le_antisymm; [exact Hz1 |]. rewrite E53 in L1. exact L1. }
    apply (round64u_on_grid r (2 ^ 52)).
    replace (cexp r) with (c + 1)%Z by (unfold emin in *; lia).
    unfold r. rewrite Ez, <- !pow2_Z by lia. rewrite <- !pow2_add.
    replace (52 + (c + 1))%Z with (53 + c)%Z by lia. reflexivity.
  - apply (round64u_on_grid r z).
    assert (Cc : cexp r = c).
    { destruct (Z.eq_dec l 52) as [E52 | N52]; [lia |].
      assert (Hlt : (z < 2 ^ 52)%Z).
      { apply Z.lt_le_trans with (1 := L2). apply Z.pow_le_mono_r; lia. }
      specialize (Hsub Hlt). unfold emin in *. lia. }
    rewrite Cc. reflexivity.
Qed.

(** Every rounded number is fixed by rounding. *)
Lemma round64u_idem_pos (q : Q) : 0 < q -> round64u (round64u q) == round64u q.
Proof.
  intros Hq. pose proof (cexp_pos q Hq) as C. unfold prec in C.
  destruct (flog2_spec q Hq) as [F1 F2].
  assert (S0 : 0 <= scaled q).
  { unfold scaled. apply Qmult_le_0_compat; [lra | apply Qlt_le_weak, pow2_pos]. }
  assert (Z0 : (0 <= rhe (scaled q))%Z) by (apply rhe_ge_Z; exact S0).
  assert (Z1 : (rhe (scaled q) <= 2 ^ 53)%Z).
  { apply rhe_le_Z. rewrite <- pow2_Z by lia. unfold scaled.
    apply Qle_trans with (pow2 (flog2 q + 1) * pow2 (- cexp q)).
    - apply Qmult_le_compat_r; [lra | apply Qlt_le_weak, pow2_pos].
    - rewrite <- pow2_add. apply pow2_le. lia. }
  assert (Z2 : (rhe (scaled q) < 2 ^ 52)%Z -> cexp q = emin).
  { intros Hlt. destruct (Z.eq_dec (cexp q) emin) as [E | N]; [exact E | exfalso].
    assert (Cq : cexp q = (flog2 q - 52)%Z) by lia.
    assert (G : (2 ^ 52 <= rhe (scaled q))%Z); [| lia].
    apply rhe_ge_Z. rewrite <- pow2_Z by lia. unfold scaled.
    apply Qle_trans with (pow2 (flog2 q) * pow2 (- cexp q)).
    - rewrite <- pow2_add. apply pow2_le. lia.
    - apply Qmult_le_compat_r; [lra | apply Qlt_le_weak, pow2_pos]. }
  destruct (Z.eq_dec (rhe (scaled q)) 0) as [E0 | N0].
  - assert (R0 : round64u q == 0) by (unfold round64u; rewrite E0; ring).
    rewrite (round64u_zero _ R0). symmetry. exact R0.
  - apply (round64u_fix (rhe (scaled q)) (cexp q)).
    + apply cexp_ge_emin.
    + lia.
    + exact Z2.
Qed.

Lemma round64u_idem (q : Q) : round64u (round64u q) == round64u q.
Proof.
  destruct (Qlt_le_dec 0 q) as [P | N].
  - apply round64u_idem_pos, P.
  - destruct (Qeq_dec q 0) as [E | NE].
    + pose proof (round64u_zero q E) as R0.
      rewrite (round64u_zero _ R0). symmetry. exact R0.
    + assert (P : 0 < - q) by lra.
      pose proof (round64u_idem_pos _ P) as I.
      rewrite (round64u_comp _ _ (round64u_opp q)) in I.
      rewrite 2 round64u_opp in I. lra.
Qed.

(** *** Rounding to binary64 data *)

Lemma Qle_bool_false (a b : Q) : Qle_bool a b = false -> b < a.
Proof.
  intros H. apply Qnot_le_lt. intros C. apply Qle_bool_iff in C. congruence.
Qed.

Lemma Qlt_bool_iff (a b : Q) : Qlt_bool a b = true <-> a < b.
Proof.
  unfold Qlt_bool. split.
  - intros H. apply Qle_bool_false. destruct (Qle_bool b a); [discriminate | reflexivity].
  - intros H. destruct (Qle_bool b a) eqn:E; [| reflexivity].
    apply Qle_bool_iff in E. exfalso. lra.
Qed.

Lemma Qlt_bool_false (a b : Q) : Qlt_bool a b = false -> b <= a.
Proof.
  unfold Qlt_bool. intros H. apply Qle_bool_iff.
  destruct (Qle_bool b a); [reflexivity | discriminate].
Qed.

Lemma Qsame_true (a b : Q) : Qsame a b = true -> a = b.
Proof.
  destruct a as [n d], b as [n' d']. unfold Qsame. cbn [Qnum Qden].
  intros H. apply andb_prop in H. destruct H as [H1 H2].
  apply Z.eqb_eq in H1. apply Pos.eqb_eq in H2. congruence.
Qed.

Lemma Qsame_refl (a : Q) : Qsame a a = true.
Proof. unfold Qsame. rewrite Z.eqb_refl, Pos.eqb_refl. reflexivity. Qed.

Lemma is_f64_spec (q : Q) :
  is_f64 q = true <-> Qred q = q /\ round64u q == q /\ Qabs q < pow2 emax.
Proof.
  unfold is_f64. rewrite !andb_true_iff, Qeq_bool_iff, Qlt_bool_iff. split.
  - intros [[H1 H2] H3]. repeat split; try assumption. apply Qsame_true, H1.
  - intros [H1 [H2 H3]]. repeat split; try assumption. rewrite H1. apply Qsame_refl.
Qed.

Lemma round64_comp (x y : Q) : x == y -> round64 x = round64 y.
Proof.
  intros E. unfold round64.
  rewrite (Qred_complete _ _ (round64u_comp x y E)). reflexivity.
Qed.

Lemma round64_fix (q : Q) : is_f64 q = true -> round64 q = Fin q.
Proof.
  intros H. apply is_f64_spec in H. destruct H as [H1 [H2 H3]].
  unfold round64. rewrite (Qred_complete _ _ H2), H1.
  assert (B : - pow2 emax < q < pow2 emax).
  { revert H3. apply Qabs_case; intros; lra. }
  destruct (Qle_bool (pow2 emax) q) eqn:E1.
  - apply Qle_bool_iff in E1. exfalso. lra.
  - destruct (Qle_bool q (- pow2 emax)) eqn:E2; [| reflexivity].
    apply Qle_bool_iff in E2. exfalso. lra.
Qed.

Lemma round64_wf (q : Q) : wf (round64 q) = true.
Proof.
  unfold round64.
  destruct (Qle_bool (pow2 emax) (Qred (round64u q))) eqn:E1; [reflexivity |].
  destruct (Qle_bool (Qred (round64u q)) (- pow2 emax)) eqn:E2; [reflexivity |].
  apply Qle_bool_false in E1, E2. cbn [wf]. apply is_f64_spec. repeat split.
  - apply Qred_complete, Qred_correct.
  - rewrite (round64u_comp _ _ (Qred_correct (round64u q))).
    rewrite round64u_idem. symmetry. apply Qred_correct.
  - apply Qabs_case; intros; lra.
Qed.

Lemma round64_le (x y : Q) : x <= y -> fle (round64 x) (round64 y) = true.
Proof.
  intros H. apply round64u_le in H.
  rewrite <- (Qred_correct (round64u x)), <- (Qred_correct (round64u y)) in H.
  pose proof (pow2_pos emax) as P.
  unfold round64.
  destruct (Qle_bool (pow2 emax) (Qred (round64u x))) eqn:X1;
    destruct (Qle_bool (pow2 emax) (Qred (round64u y))) eqn:Y1;
    destruct (Qle_bool (Qred (round64u x)) (- pow2 emax)) eqn:X2;
    destruct (Qle_bool (Qred (round64u y)) (- pow2 emax)) eqn:Y2;
    cbn [fle]; try reflexivity;
    repeat match goal with
           | E : Qle_bool _ _ = true |- _ => apply Qle_bool_iff in E
           | E : Qle_bool _ _ = false |- _ => apply Qle_bool_false in E
           end;
    try (apply Qle_bool_iff; assumption); exfalso; lra.
Qed.

(** What a comparison with a finite number says about a rounded number. *)
Lemma round64_ge_Fin (q b : Q) :
  is_f64 b = true -> b <= q -> fle (Fin b) (round64 q) = true.
Proof. intros Hb H. rewrite <- (round64_fix b Hb). apply round64_le, H. Qed.

Lemma round64_le_Fin (q b : Q) :
  is_f64 b = true -> q <= b -> fle (round64 q) (Fin b) = true.
Proof. intros Hb H. rewrite <- (round64_fix b Hb). apply round64_le, H. Qed.

(** A rounded number between two finite numbers is finite. *)
Lemma round64_between (q a b : Q) :
  is_f64 a = true -> is_f64 b = true -> a <= q <= b ->
  exists r, round64 q = Fin r /\ is_f64 r = true /\ a <= r <= b.
Proof.
  intros Ha Hb [H1 H2].
  pose proof (round64_ge_Fin q a Ha H1) as L.
  pose proof (round64_le_Fin q b Hb H2) as U.
  pose proof (round64_wf q) as W.
  destruct (round64 q) as [r | | |]; cbn in L, U, W; try discriminate.
  exists r. apply Qle_bool_iff in L, U. auto.
Qed.

(** *** Finite numbers *)

Lemma finite_inv (x : float) :
  finite x = true -> exists q, x = Fin q /\ is_f64 q = true.
Proof. destruct x as [q | | |]; cbn; try discriminate. intros H. exists q. auto. Qed.

Lemma is_f64_0 : is_f64 0 = true.
Proof. vm_compute. reflexivity. Qed.

Lemma is_f64_1 : is_f64 1 = true.
Proof. vm_compute. reflexivity. Qed.

Lemma of_Z_0 : of_Z 0 = Fin 0.
Proof. vm_compute. reflexivity. Qed.

Lemma of_Z_1 : of_Z 1 = Fin 1.
Proof. vm_compute. reflexivity. Qed.

Lemma of_Z_100 : of_Z 100 = Fin 100.
Proof. vm_compute. reflexivity. Qed.

Lemma round64_0 : round64 0 = Fin 0.
Proof. vm_compute. reflexivity. Qed.

Lemma is_f64_opp (q : Q) : is_f64 q = true -> is_f64 (- q) = true.
Proof.
  rewrite !is_f64_spec. intros [H1 [H2 H3]]. repeat split.
  - rewrite Qred_opp, H1. reflexivity.
  - rewrite round64u_opp, H2. reflexivity.
  - rewrite Qabs_opp. exact H3.
Qed.

Lemma is_f64_abs (q : Q) : is_f64 q = true -> is_f64 (Qabs q) = true.
Proof.
  intros H. destruct q as [n d]. destruct n as [| p | p].
  - exact H.
  - exact H.
  - apply is_f64_opp in H. exact H.
Qed.

(** The least positive binary64 number, [2^-1074]; every finite binary64
    number is a multiple of it. *)
Definition tiny : Q := Qred (pow2 emin).

Lemma is_f64_tiny : is_f64 tiny = true.
Proof. vm_compute. reflexivity. Qed.

Lemma tiny_eq : tiny == pow2 emin.
Proof. apply Qred_correct. Qed.

Lemma f64_grid (q : Q) : is_f64 q = true -> exists k : Z, q == inject_Z k * tiny.
Proof.
  intros H. apply is_f64_spec in H. destruct H as [_ [H _]].
  exists (rhe (scaled q) * 2 ^ (cexp q - emin))%Z.
  rewrite <- H at 1. unfold round64u.
  rewrite (pow2_grid (cexp q) emin) by apply cexp_ge_emin.
  rewrite inject_Z_mult, tiny_eq. ring.
Qed.

(** The difference of two distinct binary64 numbers does not round to zero. *)
Lemma round64_sub_pos (a b : Q) :
  is_f64 a = true -> is_f64 b = true -> b < a ->
  flt (Fin 0) (round64 (a + - b)) = true.
Proof.
  intros Ha Hb Hlt.
  destruct (f64_grid a Ha) as [ka Ea]. destruct (f64_grid b Hb) as [kb Eb].
  assert (T : 0 < tiny) by (rewrite tiny_eq; apply pow2_pos).
  assert (K : (1 <= ka - kb)%Z).
  { assert (P : 0 < inject_Z (ka - kb)).
    { apply (Qmult_lt_r _ _ tiny T). unfold Z.sub.
      rewrite inject_Z_plus, inject_Z_opp. lra. }
    rewrite <- (Zlt_Qlt 0) in P. lia. }
  assert (G : tiny <= a + - b).
  { rewrite Zle_Qle in K. unfold Z.sub in K.
    rewrite inject_Z_plus, inject_Z_opp in K. change (inject_Z 1) with 1 in K.
    rewrite Ea, Eb. nra. }
  pose proof (round64_ge_Fin _ _ is_f64_tiny G) as L.
  destruct (round64 (a + - b)) as [r | | |]; cbn in L |- *; try discriminate; try reflexivity.
  apply Qle_bool_iff in L. apply Qlt_bool_iff. lra.
Qed.

(** *** The error of one rounding

    A rounded number is within half a unit in the last place of the exact
    one: within [2^-53] of it in relative terms, or within [2^-1075] when
    the result is subnormal. *)

Lemma round64u_half_ulp (q : Q) :
  Qabs (round64u q - q) <= (1 # 2) * pow2 (cexp q).
Proof.
  pose proof (rhe_near (scaled q)) as N.
  pose proof (scaled_cancel q) as C.
  pose proof (pow2_pos (cexp q)) as P.
  unfold round64u. apply Qabs_Qle_condition.
  set (z := inject_Z (rhe (scaled q))) in *. set (s := scaled q) in *.
  set (w := pow2 (cexp q)) in *. split; nra.
Qed.

Lemma ulp_bound (q : Q) :
  ~ q == 0 -> pow2 (cexp q) <= pow2 (-52) * Qabs q + pow2 emin.
Proof.
  intros N.
  assert (A : 0 < Qabs q) by (revert N; apply Qabs_case; intros; lra).
  destruct (flog2_spec _ A) as [F _].
  pose proof (pow2_pos emin) as Pe. pose proof (pow2_pos (-52)) as P52.
  unfold cexp, prec.
  destruct (Z.max_spec (flog2 (Qabs q) - (53 - 1)) emin) as [[_ ->] | [_ ->]].
  - nra.
  - replace (flog2 (Qabs q) - (53 - 1))%Z with (-52 + flog2 (Qabs q))%Z by lia.
    rewrite pow2_add. nra.
Qed.

Lemma round64u_error (q : Q) :
  Qabs (round64u q - q) <= pow2 (-53) * Qabs q + pow2 (-1075).
Proof.
  destruct (Qeq_dec q 0) as [Z | N].
  - assert (E : round64u q - q == 0) by (rewrite (round64u_zero q Z), Z; ring).
    rewrite E. change (Qabs 0) with 0.
    pose proof (pow2_pos (-53)). pose proof (pow2_pos (-1075)).
    pose proof (Qabs_nonneg q). nra.
  - apply Qle_trans with (1 := round64u_half_ulp q).
    pose proof (ulp_bound q N) as U.
    assert (E1 : pow2 (-53) == (1 # 2) * pow2 (-52)) by reflexivity.
    assert (E2 : pow2 (-1075) == (1 # 2) * pow2 emin) by reflexivity.
    rewrite E1, E2. lra.
Qed.

Lemma round64_error (q r : Q) :
  round64 q = Fin r -> Qabs (r - q) <= pow2 (-53) * Qabs q + pow2 (-1075).
Proof.
  unfold round64. intros H.
  destruct (Qle_bool _ _); [discriminate |].
  destruct (Qle_bool _ _); [discriminate |].
  injection H as <-.
  assert (E : Qred (round64u q) - q == round64u q - q).
  { unfold Qminus. apply Qplus_comp; [apply Qred_correct | reflexivity]. }
  rewrite E. apply round64u_error.
Qed.

(** The number a finite datum denotes. *)
Definition value (x : float) : Q :=
  match x with
  | Fin q => q
  | _ => 0
  end.

(** A number that is at most zero is not greater than zero. *)
Lemma fle_0_not_gt (x : float) : fle x (Fin 0) = true -> flt (Fin 0) x = false.
Proof.
  destruct x as [q | | |]; cbn; try discriminate; try reflexivity.
  intros H. unfold Qlt_bool. rewrite H. reflexivity.
Qed.

End Binary64.

(** ** Agreement with the machine's binary64

    The operations above are the ones of IEEE 754: they return what Rocq's
    primitive floats, which are the processor's binary64, return.  The check
    runs the four operations and the two comparisons on every pair of the
    samples below: zero, integers, fractions that are not dyadic, the largest
    and the least finite numbers, the least normal number, the infinities
    and a NaN. *)

Module Conformance.
Import Binary64.
Import PrimFloat.

Definition of_spec (x : SpecFloat.spec_float) : Binary64.float :=
  match x with
  | SpecFloat.S754_zero _ => Fin 0
  | SpecFloat.S754_infinity s => if s then NInf else PInf
  | SpecFloat.S754_nan => NaN
  | SpecFloat.S754_finite s m e =>
      Fin (Qred ((if s then -1 else 1) * inject_Z (Zpos m) * pow2 e))
  end.

Definition of_prim (x : PrimFloat.float) : Binary64.float :=
  of_spec (FloatOps.Prim2SF x).

Definition same (a b : Binary64.float) : bool :=
  match a, b with
  | Fin x, Fin y => Qsame x y
  | PInf, PInf | NInf, NInf | NaN, NaN => true
  | _, _ => false
  end.

Definition samples : list PrimFloat.float :=
  [0; 1; 100; 2900000; -2.5; 1 / 10; 30 / 100; 1e22;
   0x1.fffffffffffffp+1023; 0x1p-1074; 0x1p-1022; infinity; neg_infinity; nan]%float.

Definition agree (x y : PrimFloat.float) : bool :=
  same (of_prim (x + y)) (fadd (of_prim x) (of_prim y))
  && same (of_prim (x - y)) (fsub (of_prim x) (of_prim y))
  && same (of_prim (x * y)) (fmul (of_prim x) (of_prim y))
  && match fdiv (of_prim x) (of_prim y) with
     | Some q => same (of_prim (x / y)) q
     | None => PrimFloat.eqb y 0
     end
  && Bool.eqb (PrimFloat.leb x y) (fle (of_prim x) (of_prim y))
  && Bool.eqb (PrimFloat.ltb x y) (flt (of_prim x) (of_prim y))
  && wf (of_prim x).

Example agrees_with_primitive_floats :
  forallb (fun xy => agree (fst xy) (snd xy)) (list_prod samples samples) = true.
Proof. vm_compute. reflexivity. Qed.

End Conformance.

(** ** The Python operators of the source *)

Module Python.
Import Binary64.

(** The exceptions the modelled code can raise: [x / y] with [y] zero, and
    [d[key]] with [key] not in [d]. *)
Inductive exn : Type :=
  | ZeroDivisionError
  | KeyError (key : string).

Inductive outcome (A : Type) : Type :=
  | Returns (a : A)
  | Raises (e : exn).
Arguments Returns {A} a.
Arguments Raises {A} e.

Definition bind {A B : Type} (m : outcome A) (k : A -> outcome B) : outcome B :=
  match m with
  | Returns a => k a
  | Raises e => Raises e
  end.

Notation "x <- m ;; k" := (bind m (fun x => k))
  (at level 61, m at next level, right associativity).

(** An int operand of a float operation is converted to float first.  The
    ints of the program are the literals [0] and [100] and widget values of
    at most 3,000,000: the conversion is exact. *)
Definition int (z : Z) : float := of_Z z.

Definition mul (x y : float) : float := fmul x y.
Definition sub (x y : float) : float := fsub x y.
Definition add (x y : float) : float := fadd x y.

Definition truediv (x y : float) : outcome float :=
  match fdiv x y with
  | Some r => Returns r
  | None => Raises ZeroDivisionError
  end.

Definition gt (x y : float) : bool := fgt x y.

(** [max(a, b)]: the builtin keeps its first argument unless the second
    compares greater. *)
Definition max (a b : float) : float := if gt b a then b else a.

(** [d[key]], for a dict kept as the list of its items in insertion order. *)
Fixpoint getitem {V : Type} (d : list (string * V)) (key : string) : outcome V :=
  match d with
  | [] => Raises (KeyError key)
  | (k, v) :: rest => if String.eqb k key then Returns v else getitem rest key
  end.

End Python.

(** ** The part of numpy the program calls *)

Module Numpy.
Import Binary64.

(** numpy's division does not raise.  [linspace] divides by [num - 1] after
    checking that it is positive, so the divisor is never a zero there. *)
Definition true_divide (x y : float) : float :=
  match fdiv x y with
  | Some r => r
  | None => NaN
  end.

(** [np.arange(0, num)] as floats. *)
Definition arange (num : nat) : list float :=
  map (fun i => of_Z (Z.of_nat i)) (seq 0 num).

(** [y[-1] = stop] *)
Definition set_last (y : list float) (stop : float) : list float :=
  removelast y ++ [stop].

(** [np.linspace(start, stop, num)] with the default [endpoint=True], as
    numpy computes it: [step = (stop - start) / (num - 1)], the samples
    [arange(0, num) * step + start], and the last sample then set to [stop]. *)
Definition linspace (start stop : float) (num : nat) : list float :=
  let div := (Z.of_nat num - 1)%Z in
  let delta := fsub stop start in
  let y := arange num in
  let y :=
    if (0 <? div)%Z then
      let step := true_divide delta (of_Z div) in
      if is_zero step then
        map (fun v => fmul (true_divide v (of_Z div)) delta) y
      else map (fun v => fmul v step) y
    else map (fun v => fmul v delta) y in
  let y := map (fun v => fadd v start) y in
  if (1 <? num)%nat then set_last y stop else y.

End Numpy.

(** ** The calculation engine of app.py *)

Module App.
Import Binary64 Python.

(** The parameter dict of one formula (app.py, lines 193-209).  The numbers
    are floats: [base_salary] and [net_collections] come out of the widgets
    as ints, and every operation of [calculate_compensation] pairs them with
    a float. *)
Record formula_params : Type := {
  base_salary : float;
  multiplier : float;
  bonus_percentage : float
}.

(** The ["details"] dict of one formula.  The source keeps the texts
    [f"${x:,.2f}"] of the threshold and of the collections above it and
    [f"{p}%"] of the rate; the record keeps the numbers they render. *)
Record details : Type := {
  Bonus_Threshold : float;
  Collections_Above_Threshold : float;
  Bonus_Rate : float
}.

(** The dict of one formula in the result. *)
Record formula_result : Type := {
  description : string;
  base_component : float;
  bonus_component : float;
  total : float;
  details_ : details
}.

Definition key1 : string := "Formula 1: Base + Bonus".
Definition key2 : string := "Formula 2: Base + Bonus".
Definition key3 : string := "Formula 3: Base + Bonus".

Definition description_text : string :=
  "Base salary plus bonus percentage of collections above threshold".

(** [calculate_compensation] (app.py, lines 23-90). *)
Definition calculate_compensation
    (formula1_params formula2_params formula3_params : formula_params)
    (net_collections : float) : outcome (list (string * formula_result)) :=
  let base_salary1 := base_salary formula1_params in
  let multiplier1 := multiplier formula1_params in
  let bonus_percentage1 := bonus_percentage formula1_params in
  let base_salary2 := base_salary formula2_params in
  let multiplier2 := multiplier formula2_params in
  let bonus_percentage2 := bonus_percentage formula2_params in
  let base_salary3 := base_salary formula3_params in
  let multiplier3 := multiplier formula3_params in
  let bonus_percentage3 := bonus_percentage formula3_params in
  let formula1_threshold := mul base_salary1 multiplier1 in
  let excess1 := max (int 0) (sub net_collections formula1_threshold) in
  rate1 <- truediv bonus_percentage1 (int 100) ;;
  let formula1_bonus := mul excess1 rate1 in
  let formula1_total := add base_salary1 formula1_bonus in
  let formula2_threshold := mul base_salary2 multiplier2 in
  let excess2 := max (int 0) (sub net_collections formula2_threshold) in
  rate2 <- truediv bonus_percentage2 (int 100) ;;
  let formula2_bonus := mul excess2 rate2 in
  let formula2_total := add base_salary2 formula2_bonus in
  let formula3_threshold := mul base_salary3 multiplier3 in
  let excess3 := max (int 0) (sub net_collections formula3_threshold) in
  rate3 <- truediv bonus_percentage3 (int 100) ;;
  let formula3_bonus := mul excess3 rate3 in
  let formula3_total := add base_salary3 formula3_bonus in
  Returns
    [ (key1,
       {| description := description_text;
          base_component := base_salary1;
          bonus_component := formula1_bonus;
          total := formula1_total;
          details_ :=
            {| Bonus_Threshold := formula1_threshold;
               Collections_Above_Threshold :=
                 max (int 0) (sub net_collections formula1_threshold);
               Bonus_Rate := bonus_percentage1 |} |});
      (key2,
       {| description := description_text;
          base_component := base_salary2;
          bonus_component := formula2_bonus;
          total := formula2_total;
          details_ :=
            {| Bonus_Threshold := formula2_threshold;
               Collections_Above_Threshold :=
                 max (int 0) (sub net_collections formula2_threshold);
               Bonus_Rate := bonus_percentage2 |} |});
      (key3,
       {| description := description_text;
          base_component := base_salary3;
          bonus_component := formula3_bonus;
          total := formula3_total;
          details_ :=
            {| Bonus_Threshold := formula3_threshold;
               Collections_Above_Threshold :=
                 max (int 0) (sub net_collections formula3_threshold);
               Bonus_Rate := bonus_percentage3 |} |}) ].

(** One row of [comparison_data] (app.py, lines 256-261). *)
Record row : Type := {
  Net_Collections : float;
  Formula_1 : float;
  Formula_2 : float;
  Formula_3 : float
}.

(** The loop of app.py, lines 254-261, over any range, from the rows
    appended so far. *)
Fixpoint comparison_loop
    (formula1_params formula2_params formula3_params : formula_params)
    (collection_range : list float) (comparison_data : list row)
    : outcome (list row) :=
  match collection_range with
  | [] => Returns comparison_data
  | collection :: rest =>
      comp_results <-
        calculate_compensation formula1_params formula2_params formula3_params
          collection ;;
      r1 <- getitem comp_results key1 ;;
      r2 <- getitem comp_results key2 ;;
      r3 <- getitem comp_results key3 ;;
      comparison_loop formula1_params formula2_params formula3_params rest
        (comparison_data ++
           [ {| Net_Collections := collection;
                Formula_1 := total r1;
                Formula_2 := total r2;
                Formula_3 := total r3 |} ])
  end.

(** The sweep: the rows of [comparison_df] for a range of samples. *)
Definition sweep
    (formula1_params formula2_params formula3_params : formula_params)
    (collection_range : list float) : outcome (list row) :=
  comparison_loop formula1_params formula2_params formula3_params
    collection_range [].

(** [collection_range] (app.py, line 251) and the rows the program charts. *)
Definition collection_range : list float :=
  Numpy.linspace (int 100000) (int 3000000) 100.

Definition comparison_df
    (formula1_params formula2_params formula3_params : formula_params)
    : outcome (list row) :=
  sweep formula1_params formula2_params formula3_params collection_range.

(** The three formula slots of the result, with the key and the parameter
    dict of each. *)
Inductive slot : Type := Slot1 | Slot2 | Slot3.

Definition key_of (s : slot) : string :=
  match s with Slot1 => key1 | Slot2 => key2 | Slot3 => key3 end.

Definition params_of (s : slot) (f1 f2 f3 : formula_params) : formula_params :=
  match s with Slot1 => f1 | Slot2 => f2 | Slot3 => f3 end.

(** [calculate_compensation(f1, f2, f3, net_collections)[key]]: what the
    program computes for one formula. *)
Definition formula_at (s : slot) (f1 f2 f3 : formula_params)
    (net_collections : float) : outcome formula_result :=
  res <- calculate_compensation f1 f2 f3 net_collections ;;
  getitem res (key_of s).

(** The input domain: a base salary of at least 0, a multiplier of at least
    1, a bonus percentage between 0 and 100, collections of at least 0, all
    finite numbers. *)
Definition valid_params (p : formula_params) : bool :=
  finite (base_salary p) && fle (int 0) (base_salary p)
  && finite (multiplier p) && fle (int 1) (multiplier p)
  && finite (bonus_percentage p)
  && fle (int 0) (bonus_percentage p) && fle (bonus_percentage p) (int 100).

Definition valid_collections (c : float) : bool :=
  finite c && fle (int 0) c.

End App.

(** ** The operations as the specification words them *)

Module Spec.
Import Binary64 Python.

(** The result record of the specification. *)
Record FormulaResult : Type := {
  threshold : float;
  collections_above_threshold : float;
  bonus : float;
  total : float
}.

(** [compute(params, collections)]: threshold = base_salary x multiplier,
    excess = max(0, collections - threshold), bonus = excess x
    (bonus_percentage / 100), total = base_salary + bonus. *)
Definition compute (params : App.formula_params) (collections : float)
    : outcome FormulaResult :=
  let threshold := mul (App.base_salary params) (App.multiplier params) in
  let excess := max (int 0) (sub collections threshold) in
  rate <- truediv (App.bonus_percentage params) (int 100) ;;
  let bonus := mul excess rate in
  Returns
    {| threshold := threshold;
       collections_above_threshold := excess;
       bonus := bonus;
       total := add (App.base_salary params) bonus |}.

(** The record of the specification read off one formula's result dict. *)
Definition view (r : App.formula_result) : FormulaResult :=
  {| threshold := App.Bonus_Threshold (App.details_ r);
     collections_above_threshold := App.Collections_Above_Threshold (App.details_ r);
     bonus := App.bonus_component r;
     total := App.total r |}.

End Spec.

(** ** Properties of the calculation engine *)

Module Properties.
Import Binary64 Python App.

(** *** What [calculate_compensation] returns

    The only operation of the function that can raise is the division, and
    its divisor is the literal 100: the function returns on every input.
    [rate_of] is the quotient and [entry] the dict of one formula. *)

Definition rate_of (pct : float) : float :=
  match fdiv pct (Fin 100) with
  | Some r => r
  | None => NaN
  end.

Definition excess_of (c t : float) : float := max (int 0) (sub c t).

Definition entry (p : formula_params) (c : float) : formula_result :=
  let t := mul (base_salary p) (multiplier p) in
  let bo := mul (excess_of c t) (rate_of (bonus_percentage p)) in
  {| description := description_text;
     base_component := base_salary p;
     bonus_component := bo;
     total := add (base_salary p) bo;
     details_ :=
       {| Bonus_Threshold := t;
          Collections_Above_Threshold := excess_of c t;
          Bonus_Rate := bonus_percentage p |} |}.

Lemma int_0 : int 0 = Fin 0.
Proof. exact of_Z_0. Qed.

Lemma int_1 : int 1 = Fin 1.
Proof. exact of_Z_1. Qed.

Lemma int_100 : int 100 = Fin 100.
Proof. exact of_Z_100. Qed.

Lemma truediv_100 (x : float) : truediv x (int 100) = Returns (rate_of x).
Proof. rewrite int_100. unfold truediv, rate_of, fdiv. reflexivity. Qed.

Lemma calculate_compensation_eq (f1 f2 f3 : formula_params) (c : float) :
  calculate_compensation f1 f2 f3 c
  = Returns [ (key1, entry f1 c); (key2, entry f2 c); (key3, entry f3 c) ].
Proof.
  unfold calculate_compensation. rewrite !truediv_100. reflexivity.
Qed.

Lemma formula_at_eq (s : slot) (f1 f2 f3 : formula_params) (c : float) :
  formula_at s f1 f2 f3 c = Returns (entry (params_of s f1 f2 f3) c).
Proof.
  unfold formula_at. rewrite calculate_compensation_eq. destruct s; reflexivity.
Qed.

(** *** The input domain *)

Lemma valid_params_inv (p : formula_params) :
  valid_params p = true ->
  exists b m pct,
    p = {| base_salary := Fin b; multiplier := Fin m; bonus_percentage := Fin pct |}
    /\ is_f64 b = true /\ is_f64 m = true /\ is_f64 pct = true
    /\ 0 <= b /\ 1 <= m /\ 0 <= pct <= 100.
Proof.
  destruct p as [b m pct]. unfold valid_params. cbn [base_salary multiplier bonus_percentage].
  rewrite int_0, int_1, int_100, !andb_true_iff.
  intros [[[[[[Fb Lb] Fm] Lm] Fp] Lp] Up].
  apply finite_inv in Fb, Fm, Fp.
  destruct Fb as [qb [-> Hb]], Fm as [qm [-> Hm]], Fp as [qp [-> Hp]].
  cbn [fle] in Lb, Lm, Lp, Up. apply Qle_bool_iff in Lb, Lm, Lp, Up.
  exists qb, qm, qp. repeat split; assumption.
Qed.

Lemma valid_collections_inv (c : float) :
  valid_collections c = true -> exists q, c = Fin q /\ is_f64 q = true /\ 0 <= q.
Proof.
  unfold valid_collections. rewrite int_0, andb_true_iff. intros [F L].
  apply finite_inv in F. destruct F as [q [-> Hq]].
  cbn [fle] in L. apply Qle_bool_iff in L. exists q. auto.
Qed.

(** *** The steps of one formula *)

Lemma rate_of_Fin (pct : Q) : rate_of (Fin pct) = round64 (pct / 100).
Proof. reflexivity. Qed.

(** The rate of a percentage between 0 and 100 is between 0 and 1. *)
Lemma rate_valid (pct : Q) :
  0 <= pct <= 100 ->
  exists k, rate_of (Fin pct) = Fin k /\ is_f64 k = true /\ 0 <= k <= 1.
Proof.
  intros H. rewrite rate_of_Fin.
  apply round64_between; [exact is_f64_0 | exact is_f64_1 |].
  assert (E : pct / 100 == pct * (1 # 100)) by reflexivity.
  rewrite E. lra.
Qed.

(** The rate of any finite percentage is finite. *)
Lemma rate_finite (pct : Q) :
  is_f64 pct = true -> exists k, rate_of (Fin pct) = Fin k /\ is_f64 k = true.
Proof.
  intros H. rewrite rate_of_Fin.
  destruct (round64_between (pct / 100) (- Qabs pct) (Qabs pct)) as [k [E [F _]]].
  - apply is_f64_opp, is_f64_abs, H.
  - apply is_f64_abs, H.
  - assert (E : pct / 100 == pct * (1 # 100)) by reflexivity.
    rewrite E. apply Qabs_case; intros; lra.
  - exists k. auto.
Qed.

(** The threshold of a valid parameter set is a number that is at least 0;
    it is the infinity when the product overflows. *)
Lemma threshold_cases (b m : Q) :
  0 <= b -> 1 <= m ->
  (exists t, mul (Fin b) (Fin m) = Fin t /\ is_f64 t = true /\ 0 <= t)
  \/ mul (Fin b) (Fin m) = PInf.
Proof.
  intros Hb Hm. unfold mul. cbn [fmul].
  assert (P : 0 <= b * m) by nra.
  pose proof (round64_ge_Fin _ _ is_f64_0 P) as L.
  pose proof (round64_wf (b * m)) as W.
  destruct (round64 (b * m)) as [t | | |]; cbn in L, W; try discriminate.
  - left. exists t. apply Qle_bool_iff in L. auto.
  - right. reflexivity.
Qed.

Lemma excess_of_eq (c t : float) :
  excess_of c t = if flt (Fin 0) (fsub c t) then fsub c t else Fin 0.
Proof. unfold excess_of, max, gt, fgt, sub. rewrite int_0. reflexivity. Qed.

(** The collections above the threshold: zero, or the rounded difference
    when that is positive. *)
Lemma excess_cases (c : Q) (t : float) :
  is_f64 c = true -> fle (Fin 0) t = true ->
  excess_of (Fin c) t = Fin 0
  \/ exists tq e, t = Fin tq /\ excess_of (Fin c) t = Fin e
       /\ round64 (c + - tq) = Fin e /\ is_f64 e = true /\ 0 < e <= c.
Proof.
  intros Hc Ht. rewrite excess_of_eq.
  destruct (flt (Fin 0) (fsub (Fin c) t)) eqn:G; [right | left; reflexivity].
  destruct t as [tq | | |]; cbn in Ht, G; try discriminate.
  apply Qle_bool_iff in Ht.
  assert (U : c + - tq <= c) by lra.
  pose proof (round64_le_Fin _ _ Hc U) as L.
  pose proof (round64_wf (c + - tq)) as W.
  cbn [fsub fneg fadd].
  destruct (round64 (c + - tq)) as [e | | |] eqn:R; cbn in G, L, W; try discriminate.
  apply Qlt_bool_iff in G. apply Qle_bool_iff in L.
  exists tq, e. repeat split; auto.
Qed.

(** The bonus on finite collections above the threshold [e] at a rate
    between 0 and 1 is between 0 and [e]. *)
Lemma bonus_bounds (e k : Q) :
  is_f64 e = true -> 0 <= e -> 0 <= k <= 1 ->
  exists bo, mul (Fin e) (Fin k) = Fin bo /\ is_f64 bo = true /\ 0 <= bo <= e.
Proof.
  intros He H0 Hk. unfold mul. cbn [fmul].
  apply round64_between; [exact is_f64_0 | exact He | nra].
Qed.

(** Nothing above the threshold, no bonus. *)
Lemma bonus_zero (k : Q) : mul (Fin 0) (Fin k) = Fin 0.
Proof.
  unfold mul. cbn [fmul]. rewrite (round64_comp (0 * k) 0) by ring. exact round64_0.
Qed.

Lemma total_zero_bonus (b : Q) : is_f64 b = true -> add (Fin b) (Fin 0) = Fin b.
Proof.
  intros H. unfold add. cbn [fadd]. rewrite (round64_comp (b + 0) b) by ring.
  apply round64_fix, H.
Qed.

Lemma total_ge_base (b bo : Q) :
  is_f64 b = true -> 0 <= bo -> fle (Fin b) (add (Fin b) (Fin bo)) = true.
Proof.
  intros H P. unfold add. cbn [fadd]. apply round64_ge_Fin; [exact H | lra].
Qed.

(** Collections up to the threshold leave nothing above it. *)
Lemma no_excess (c : Q) (t : float) :
  fle (Fin c) t = true -> excess_of (Fin c) t = Fin 0.
Proof.
  intros H. rewrite excess_of_eq.
  destruct t as [tq | | |]; cbn in H; try discriminate.
  - cbn [fsub fneg fadd]. rewrite fle_0_not_gt; [reflexivity |].
    apply Qle_bool_iff in H. apply round64_le_Fin; [exact is_f64_0 | lra].
  - reflexivity.
Qed.

(** The collections above the threshold grow with the collections. *)
Lemma excess_mono (c1 c2 : Q) (t : float) (e1 e2 : Q) :
  is_f64 c1 = true -> is_f64 c2 = true -> fle (Fin 0) t = true -> c1 <= c2 ->
  excess_of (Fin c1) t = Fin e1 -> excess_of (Fin c2) t = Fin e2 -> e1 <= e2.
Proof.
  intros H1 H2 Ht Hc E1 E2.
  assert (P2 : 0 <= e2).
  { destruct (excess_cases c2 t H2 Ht) as [Z | [tq [e [_ [X [_ [_ B]]]]]]].
    - rewrite Z in E2. injection E2 as <-. apply Qle_refl.
    - rewrite X in E2. injection E2 as <-. lra. }
  destruct (excess_cases c1 t H1 Ht) as [Z | [tq [e [T [X [R [_ B]]]]]]].
  - rewrite Z in E1. injection E1 as <-. exact P2.
  - rewrite X in E1. injection E1 as <-. subst t.
    assert (M : c1 + - tq <= c2 + - tq) by lra.
    apply round64_le in M. rewrite R in M.
    rewrite excess_of_eq in E2. cbn [fsub fneg fadd] in E2.
    destruct (round64 (c2 + - tq)) as [x | | |]; cbn in M; try discriminate.
    apply Qle_bool_iff in M.
    assert (G : flt (Fin 0) (Fin x) = true) by (apply Qlt_bool_iff; lra).
    rewrite G in E2. injection E2 as <-. exact M.
Qed.

(** The values of one formula on a valid parameter set and finite
    collections: all are finite but the threshold and the total, which are
    the infinity when they overflow. *)
Lemma entry_shape (b m pct c : Q) :
  is_f64 b = true -> is_f64 c = true -> 0 <= b -> 1 <= m -> 0 <= pct <= 100 ->
  exists e k bo,
    excess_of (Fin c) (mul (Fin b) (Fin m)) = Fin e
    /\ rate_of (Fin pct) = Fin k
    /\ mul (Fin e) (Fin k) = Fin bo
    /\ is_f64 e = true /\ is_f64 k = true /\ is_f64 bo = true
    /\ 0 <= e /\ 0 <= k <= 1 /\ 0 <= bo <= e
    /\ fle (Fin 0) (mul (Fin b) (Fin m)) = true.
Proof.
  intros Hb Hc Pb Pm Pp.
  destruct (rate_valid pct Pp) as [k [Ek [Fk Bk]]].
  assert (T : fle (Fin 0) (mul (Fin b) (Fin m)) = true).
  { destruct (threshold_cases b m Pb Pm) as [[t [-> [_ Pt]]] | ->]; [| reflexivity].
    apply Qle_bool_iff. exact Pt. }
  assert (E : exists e, excess_of (Fin c) (mul (Fin b) (Fin m)) = Fin e
                        /\ is_f64 e = true /\ 0 <= e).
  { destruct (excess_cases c _ Hc T) as [Z | [tq [e [_ [X [_ [Fe Be]]]]]]].
    - exists 0. split; [exact Z | split; [exact is_f64_0 | apply Qle_refl]].
    - exists e. split; [exact X | split; [exact Fe | lra]]. }
  destruct E as [e [Ee [Fe Pe]]].
  destruct (bonus_bounds e k Fe Pe Bk) as [bo [Ebo [Fbo Bbo]]].
  exists e, k, bo. repeat split; try assumption; lra.
Qed.

(** The values of [entry] in these terms. *)
Lemma entry_fields (b m pct : float) (c : float) :
  let p := {| base_salary := b; multiplier := m; bonus_percentage := pct |} in
  bonus_component (entry p c) = mul (excess_of c (mul b m)) (rate_of pct)
  /\ total (entry p c) = add b (mul (excess_of c (mul b m)) (rate_of pct))
  /\ Bonus_Threshold (details_ (entry p c)) = mul b m
  /\ Collections_Above_Threshold (details_ (entry p c)) = excess_of c (mul b m)
  /\ base_component (entry p c) = b.
Proof. cbn. repeat split. Qed.

(** *** The properties the specification claims *)

(** C1: for every parameter set and collections value, what the function
    computes for a formula is: threshold = base_salary * multiplier; the
    collections above it = max(0, collections - threshold); bonus = that
    excess * (bonus_percentage / 100); total = base_salary + bonus.  The
    function returns; the division of the percentage by 100 does not raise. *)
Theorem calculate_compensation_formulas
    (s : slot) (f1 f2 f3 : formula_params) (c : float) :
  exists r rate,
    formula_at s f1 f2 f3 c = Returns r
    /\ truediv (bonus_percentage (params_of s f1 f2 f3)) (int 100) = Returns rate
    /\ Bonus_Threshold (details_ r)
       = mul (base_salary (params_of s f1 f2 f3)) (multiplier (params_of s f1 f2 f3))
    /\ Collections_Above_Threshold (details_ r)
       = max (int 0) (sub c (Bonus_Threshold (details_ r)))
    /\ bonus_component r = mul (Collections_Above_Threshold (details_ r)) rate
    /\ total r = add (base_salary (params_of s f1 f2 f3)) (bonus_component r)
    /\ base_component r = base_salary (params_of s f1 f2 f3).
Proof.
  exists (entry (params_of s f1 f2 f3) c), (rate_of (bonus_percentage (params_of s f1 f2 f3))).
  split; [apply formula_at_eq |].
  split; [apply truediv_100 |].
  destruct (params_of s f1 f2 f3) as [b m pct].
  cbn. repeat split.
Qed.

(** C2: on the input domain (base_salary >= 0, multiplier >= 1, percentage
    in [0, 100], collections >= 0) the total is at least the base salary,
    the bonus is at least 0, and the threshold is the product of the base
    salary and the multiplier. *)
Theorem total_at_least_base
    (s : slot) (f1 f2 f3 : formula_params) (c : float) :
  valid_params (params_of s f1 f2 f3) = true ->
  valid_collections c = true ->
  exists r,
    formula_at s f1 f2 f3 c = Returns r
    /\ fle (base_salary (params_of s f1 f2 f3)) (total r) = true
    /\ fle (int 0) (bonus_component r) = true
    /\ Bonus_Threshold (details_ r)
       = mul (base_salary (params_of s f1 f2 f3)) (multiplier (params_of s f1 f2 f3)).
Proof.
  intros Vp Vc. exists (entry (params_of s f1 f2 f3) c).
  split; [apply formula_at_eq |].
  apply valid_params_inv in Vp. destruct Vp as [b [m [pct [-> [Hb [Hm [Hp [Pb [Pm Pp]]]]]]]]].
  apply valid_collections_inv in Vc. destruct Vc as [cq [-> [Hc Pc]]].
  destruct (entry_fields (Fin b) (Fin m) (Fin pct) (Fin cq)) as [Eb [Et [Eth _]]].
  rewrite Eb, Et, Eth. cbn [base_salary multiplier].
  destruct (entry_shape b m pct cq Hb Hc Pb Pm Pp)
    as [e [k [bo [Ee [Ek [Ebo [_ [_ [_ [_ [_ [Bbo _]]]]]]]]]]]].
  rewrite Ee, Ek, Ebo, int_0.
  split; [apply total_ge_base; [exact Hb | lra] |].
  split; [apply Qle_bool_iff; lra | reflexivity].
Qed.

(** C5: for a valid parameter set and collections [0 <= c1 <= c2], the total
    at [c1] is at most the total at [c2]. *)
Theorem total_monotone
    (s : slot) (f1 f2 f3 : formula_params) (c1 c2 : float) :
  valid_params (params_of s f1 f2 f3) = true ->
  valid_collections c1 = true -> valid_collections c2 = true ->
  fle c1 c2 = true ->
  exists r1 r2,
    formula_at s f1 f2 f3 c1 = Returns r1
    /\ formula_at s f1 f2 f3 c2 = Returns r2
    /\ fle (total r1) (total r2) = true.
Proof.
  intros Vp V1 V2 L.
  exists (entry (params_of s f1 f2 f3) c1), (entry (params_of s f1 f2 f3) c2).
  split; [apply formula_at_eq |]. split; [apply formula_at_eq |].
  apply valid_params_inv in Vp. destruct Vp as [b [m [pct [-> [Hb [Hm [Hp [Pb [Pm Pp]]]]]]]]].
  apply valid_collections_inv in V1. destruct V1 as [q1 [-> [H1 P1]]].
  apply valid_collections_inv in V2. destruct V2 as [q2 [-> [H2 P2]]].
  cbn [fle] in L. apply Qle_bool_iff in L.
  destruct (entry_fields (Fin b) (Fin m) (Fin pct) (Fin q1)) as [_ [-> _]].
  destruct (entry_fields (Fin b) (Fin m) (Fin pct) (Fin q2)) as [_ [-> _]].
  destruct (entry_shape b m pct q1 Hb H1 Pb Pm Pp)
    as [e1 [k [bo1 [Ee1 [Ek [Ebo1 [_ [_ [_ [Pe1 [Bk [_ T]]]]]]]]]]]].
  destruct (entry_shape b m pct q2 Hb H2 Pb Pm Pp)
    as [e2 [k' [bo2 [Ee2 [Ek' [Ebo2 _]]]]]].
  rewrite Ek in Ek'. injection Ek' as <-.
  pose proof (excess_mono q1 q2 _ e1 e2 H1 H2 T L Ee1 Ee2) as Le.
  rewrite Ee1, Ee2, Ek, Ebo1, Ebo2.
  assert (Lbo : bo1 <= bo2).
  { assert (M : e1 * k <= e2 * k) by nra.
    apply round64_le in M. unfold mul in Ebo1, Ebo2. cbn [fmul] in Ebo1, Ebo2.
    rewrite Ebo1, Ebo2 in M. cbn in M. apply Qle_bool_iff in M. exact M. }
  unfold add. cbn [fadd]. apply round64_le. lra.
Qed.

(** The error of the four roundings of one formula, above the threshold:
    [d], [k], [bo] and [v] are the rounded difference, rate, bonus and
    total, [u] and [n] the relative and the absolute error of a rounding. *)
Lemma scale_le (u x y : Q) : 0 <= u -> x <= y -> u * x <= u * y.
Proof. intros. nra. Qed.

Lemma affine_error (u n b D p d k bo v c : Q) :
  0 <= u -> 0 <= n -> 0 <= b -> 0 <= D <= c -> 0 <= p <= 1 -> 0 <= k <= 1 ->
  0 <= d <= c -> 0 <= bo <= d ->
  Qabs (d - D) <= u * Qabs D + n ->
  Qabs (k - p) <= u * Qabs p + n ->
  Qabs (bo - d * k) <= u * Qabs (d * k) + n ->
  Qabs (v - (b + bo)) <= u * Qabs (b + bo) + n ->
  Qabs (v - (b + D * p)) <= u * (b + 4 * c) + n * (c + 3).
Proof.
  intros Hu Hn Hb HD Hp Hk Hd Hbo E1 E2 E3 E4.
  assert (Pdk : 0 <= d * k <= c) by (split; nra).
  rewrite (Qabs_pos D) in E1 by lra.
  rewrite (Qabs_pos p) in E2 by lra.
  rewrite (Qabs_pos (d * k)) in E3 by lra.
  rewrite (Qabs_pos (b + bo)) in E4 by lra.
  apply Qabs_Qle_condition in E1, E2, E3, E4. apply Qabs_Qle_condition.
  assert (A0 : 0 <= u * D + n) by nra.
  assert (A1 : - (u * D + n) <= (d - D) * k <= u * D + n) by (split; nra).
  assert (B0 : 0 <= u * p + n) by nra.
  assert (A2 : - ((u * p + n) * D) <= D * (k - p) <= (u * p + n) * D) by (split; nra).
  assert (A3 : u * (d * k) <= u * c) by (apply scale_le; lra).
  assert (A4 : u * (b + bo) <= u * (b + c)) by (apply scale_le; lra).
  assert (A5 : u * D <= u * c) by (apply scale_le; lra).
  assert (A6 : u * (p * D) <= u * D) by (apply scale_le; nra).
  assert (A7 : n * D <= n * c) by (apply scale_le; lra).
  assert (X : v - (b + D * p)
              == (v - (b + bo)) + (bo - d * k) + (d - D) * k + D * (k - p)) by ring.
  rewrite X.
  set (t1 := v - (b + bo)) in *. set (t2 := bo - d * k) in *.
  set (t3 := (d - D) * k) in *. set (t4 := D * (k - p)) in *.
  set (a3 := u * (d * k)) in *. set (a4 := u * (b + bo)) in *.
  set (a6 := u * (p * D)) in *.
  assert (Y : (u * p + n) * D == a6 + n * D) by (unfold a6; ring).
  rewrite Y in A2.
  assert (W : u * (b + c) == u * b + u * c) by ring. rewrite W in A4.
  assert (W2 : u * (b + 4 * c) + n * (c + 3)
               == u * b + 4 * (u * c) + n * c + 3 * n) by ring.
  rewrite W2.
  set (uc := u * c) in *. set (uD := u * D) in *. set (nD := n * D) in *.
  set (nc := n * c) in *. set (ub := u * b) in *.
  split; lra.
Qed.

(** C6: for a valid parameter set and collections above the threshold, the
    clamp at zero is inactive: the collections above the threshold are
    collections - threshold, and
    total = base_salary + (collections - threshold) * (bonus_percentage / 100),
    each operation rounded to binary64.  A finite total is within
    2^-53 * (base_salary + 4 * collections) + 2^-1075 * (collections + 3)
    of the value at collections of the affine function of exact arithmetic
    with slope bonus_percentage / 100. *)
Theorem total_above_threshold
    (s : slot) (f1 f2 f3 : formula_params) (c : float) :
  valid_params (params_of s f1 f2 f3) = true ->
  valid_collections c = true ->
  gt c (mul (base_salary (params_of s f1 f2 f3)) (multiplier (params_of s f1 f2 f3))) = true ->
  exists r rate,
    formula_at s f1 f2 f3 c = Returns r
    /\ truediv (bonus_percentage (params_of s f1 f2 f3)) (int 100) = Returns rate
    /\ Collections_Above_Threshold (details_ r) = sub c (Bonus_Threshold (details_ r))
    /\ gt (Collections_Above_Threshold (details_ r)) (int 0) = true
    /\ total r
       = add (base_salary (params_of s f1 f2 f3))
           (mul (sub c (Bonus_Threshold (details_ r))) rate)
    /\ (finite (total r) = true ->
        Qabs (value (total r)
              - (value (base_salary (params_of s f1 f2 f3))
                 + (value c - value (Bonus_Threshold (details_ r)))
                   * (value (bonus_percentage (params_of s f1 f2 f3)) / 100)))
        <= pow2 (-53) * (value (base_salary (params_of s f1 f2 f3)) + 4 * value c)
           + pow2 (-1075) * (value c + 3)).
Proof.
  intros Vp Vc G.
  exists (entry (params_of s f1 f2 f3) c), (rate_of (bonus_percentage (params_of s f1 f2 f3))).
  split; [apply formula_at_eq |]. split; [apply truediv_100 |].
  revert G.
  apply valid_params_inv in Vp. destruct Vp as [b [m [pct [-> [Hb [Hm [Hp [Pb [Pm Pp]]]]]]]]].
  apply valid_collections_inv in Vc. destruct Vc as [cq [-> [Hc Pc]]].
  destruct (entry_fields (Fin b) (Fin m) (Fin pct) (Fin cq)) as [_ [-> [-> [-> _]]]].
  cbn [base_salary multiplier bonus_percentage]. intros G.
  unfold gt, fgt in G.
  destruct (threshold_cases b m Pb Pm) as [[t [E [Ft Pt]]] | E]; rewrite E in *;
    [| cbn in G; discriminate].
  cbn [flt] in G. apply Qlt_bool_iff in G.
  pose proof (round64_sub_pos cq t Hc Ft G) as S.
  assert (X : excess_of (Fin cq) (Fin t) = sub (Fin cq) (Fin t)).
  { rewrite excess_of_eq. unfold sub. cbn [fsub fneg fadd]. rewrite S. reflexivity. }
  rewrite X.
  split; [reflexivity |].
  split; [rewrite int_0; exact S |].
  split; [reflexivity |].
  destruct (round64_between (cq + - t) 0 cq is_f64_0 Hc) as [e [Re [Fe Be]]]; [lra |].
  destruct (rate_valid pct Pp) as [k [Rk [Fk Bk]]].
  destruct (bonus_bounds e k Fe (proj1 Be) Bk) as [bo [Rbo [Fbo Bbo]]].
  unfold sub. cbn [fsub fneg fadd]. rewrite Re, Rk, Rbo.
  unfold add. cbn [fadd value].
  destruct (round64 (b + bo)) as [v | | |] eqn:Rv; cbn [finite value]; try discriminate.
  intros _.
  assert (Ep : pct / 100 == pct * (1 # 100)) by reflexivity.
  rewrite rate_of_Fin in Rk. unfold mul in Rbo. cbn [fmul] in Rbo.
  apply (affine_error (pow2 (-53)) (pow2 (-1075)) b (cq - t) (pct / 100) e k bo v cq).
  - apply Qlt_le_weak, pow2_pos.
  - apply Qlt_le_weak, pow2_pos.
  - exact Pb.
  - lra.
  - rewrite Ep. lra.
  - exact Bk.
  - exact Be.
  - exact Bbo.
  - apply round64_error. exact Re.
  - apply round64_error. exact Rk.
  - apply round64_error. exact Rbo.
  - apply round64_error. exact Rv.
Qed.

(** C7: for a valid parameter set and collections up to the threshold, the
    threshold itself included, the bonus is 0 and the total is the base
    salary. *)
Theorem no_bonus_up_to_threshold
    (s : slot) (f1 f2 f3 : formula_params) (c : float) :
  valid_params (params_of s f1 f2 f3) = true ->
  valid_collections c = true ->
  fle c (mul (base_salary (params_of s f1 f2 f3)) (multiplier (params_of s f1 f2 f3))) = true ->
  exists r,
    formula_at s f1 f2 f3 c = Returns r
    /\ bonus_component r = Fin 0
    /\ total r = base_salary (params_of s f1 f2 f3).
Proof.
  intros Vp Vc L. exists (entry (params_of s f1 f2 f3) c).
  split; [apply formula_at_eq |].
  revert L.
  apply valid_params_inv in Vp. destruct Vp as [b [m [pct [-> [Hb [Hm [Hp [Pb [Pm Pp]]]]]]]]].
  apply valid_collections_inv in Vc. destruct Vc as [cq [-> [Hc Pc]]].
  destruct (entry_fields (Fin b) (Fin m) (Fin pct) (Fin cq)) as [-> [-> _]].
  cbn [base_salary multiplier]. intros L.
  destruct (rate_valid pct Pp) as [k [-> _]].
  rewrite (no_excess cq _ L), bonus_zero.
  split; [reflexivity | apply total_zero_bonus, Hb].
Qed.

(** A datum that is a number: finite or an infinity, not a NaN. *)
Definition is_number (x : float) : bool :=
  match x with
  | NaN => false
  | Fin q => is_f64 q
  | _ => true
  end.

(** A result with every field holding a number; the collections above the
    threshold and the bonus are finite. *)
Definition populated (r : formula_result) : bool :=
  is_number (Bonus_Threshold (details_ r))
  && finite (Collections_Above_Threshold (details_ r))
  && finite (bonus_component r)
  && is_number (total r)
  && finite (base_component r).

Lemma round64_number (q a : Q) :
  fle (Fin a) (round64 q) = true -> is_number (round64 q) = true.
Proof.
  intros L. pose proof (round64_wf q) as W.
  destruct (round64 q); cbn in *; try discriminate; auto.
Qed.

(** C8: on the input domain the function returns, it raises nothing, and
    every field of the result holds a number. *)
Theorem returns_on_domain
    (s : slot) (f1 f2 f3 : formula_params) (c : float) :
  valid_params (params_of s f1 f2 f3) = true ->
  valid_collections c = true ->
  exists r, formula_at s f1 f2 f3 c = Returns r /\ populated r = true.
Proof.
  intros Vp Vc. exists (entry (params_of s f1 f2 f3) c).
  split; [apply formula_at_eq |].
  apply valid_params_inv in Vp. destruct Vp as [b [m [pct [-> [Hb [Hm [Hp [Pb [Pm Pp]]]]]]]]].
  apply valid_collections_inv in Vc. destruct Vc as [cq [-> [Hc Pc]]].
  unfold populated.
  destruct (entry_fields (Fin b) (Fin m) (Fin pct) (Fin cq)) as [-> [-> [-> [-> ->]]]].
  destruct (entry_shape b m pct cq Hb Hc Pb Pm Pp)
    as [e [k [bo [Ee [Ek [Ebo [Fe [_ [Fbo [_ [_ [Bbo T]]]]]]]]]]]].
  rewrite Ee, Ek, Ebo. cbn [finite]. rewrite Fe, Fbo, Hb, !andb_true_r.
  apply andb_true_iff. split.
  - unfold mul in *. cbn [fmul] in *. apply (round64_number _ 0), T.
  - unfold add. cbn [fadd]. apply (round64_number _ b).
    apply round64_ge_Fin; [exact Hb | lra].
Qed.

(** C9: negative collections are absorbed by the clamp.  For a base salary
    of at least 0, a multiplier of at least 1 and any finite percentage,
    collections below 0 give no collections above the threshold, no bonus,
    and the base salary as total; nothing is raised. *)
Theorem negative_collections_clamped
    (s : slot) (f1 f2 f3 : formula_params) (c : float) :
  finite (base_salary (params_of s f1 f2 f3)) = true ->
  fle (int 0) (base_salary (params_of s f1 f2 f3)) = true ->
  finite (multiplier (params_of s f1 f2 f3)) = true ->
  fle (int 1) (multiplier (params_of s f1 f2 f3)) = true ->
  finite (bonus_percentage (params_of s f1 f2 f3)) = true ->
  finite c = true -> flt c (int 0) = true ->
  exists r,
    formula_at s f1 f2 f3 c = Returns r
    /\ Collections_Above_Threshold (details_ r) = Fin 0
    /\ bonus_component r = Fin 0
    /\ total r = base_salary (params_of s f1 f2 f3).
Proof.
  intros Fb Lb Fm Lm Fp Fc Lc. exists (entry (params_of s f1 f2 f3) c).
  split; [apply formula_at_eq |].
  destruct (params_of s f1 f2 f3) as [b m pct].
  cbn [base_salary multiplier bonus_percentage] in *.
  rewrite int_0 in Lb, Lc. rewrite int_1 in Lm.
  apply finite_inv in Fb, Fm, Fp, Fc.
  destruct Fb as [qb [-> Hb]], Fm as [qm [-> Hm]], Fp as [qp [-> Hp]], Fc as [cq [-> Hc]].
  cbn [fle flt] in Lb, Lm, Lc.
  apply Qle_bool_iff in Lb, Lm. apply Qlt_bool_iff in Lc.
  destruct (entry_fields (Fin qb) (Fin qm) (Fin qp) (Fin cq)) as [-> [-> [_ [-> _]]]].
  destruct (rate_finite qp Hp) as [k [-> _]].
  assert (L : fle (Fin cq) (mul (Fin qb) (Fin qm)) = true).
  { destruct (threshold_cases qb qm Lb Lm) as [[t [-> [_ Pt]]] | ->]; [| reflexivity].
    apply Qle_bool_iff. lra. }
  rewrite (no_excess cq _ L), bonus_zero.
  repeat split. apply total_zero_bonus, Hb.
Qed.

(** C4: each slot of the result is [compute] on the slot's own parameters
    and the shared collections, and does not change when the parameters of
    the other two slots do. *)
Theorem slots_independent (f1 f2 f3 : formula_params) (c : float) :
  exists r1 r2 r3,
    calculate_compensation f1 f2 f3 c = Returns [ (key1, r1); (key2, r2); (key3, r3) ]
    /\ Spec.compute f1 c = Returns (Spec.view r1)
    /\ Spec.compute f2 c = Returns (Spec.view r2)
    /\ Spec.compute f3 c = Returns (Spec.view r3)
    /\ (forall g2 g3, formula_at Slot1 f1 g2 g3 c = Returns r1)
    /\ (forall g1 g3, formula_at Slot2 g1 f2 g3 c = Returns r2)
    /\ (forall g1 g2, formula_at Slot3 g1 g2 f3 c = Returns r3).
Proof.
  exists (entry f1 c), (entry f2 c), (entry f3 c).
  split; [apply calculate_compensation_eq |].
  assert (S : forall f, Spec.compute f c = Returns (Spec.view (entry f c))).
  { intros f. unfold Spec.compute. rewrite truediv_100. reflexivity. }
  repeat split; try apply S; intros; apply formula_at_eq.
Qed.

(** The row of one sample. *)
Definition row_at (f1 f2 f3 : formula_params) (c : float) : row :=
  {| Net_Collections := c;
     Formula_1 := total (entry f1 c);
     Formula_2 := total (entry f2 c);
     Formula_3 := total (entry f3 c) |}.

Lemma comparison_loop_eq (f1 f2 f3 : formula_params) (cs : list float) :
  forall acc,
    comparison_loop f1 f2 f3 cs acc = Returns (acc ++ map (row_at f1 f2 f3) cs).
Proof.
  induction cs as [| c cs IH]; intros acc.
  - cbn. rewrite app_nil_r. reflexivity.
  - cbn [comparison_loop]. rewrite calculate_compensation_eq.
    cbn [bind]. change (getitem _ key1) with (Returns (entry f1 c)).
    change (getitem _ key2) with (Returns (entry f2 c)).
    change (getitem _ key3) with (Returns (entry f3 c)).
    cbn [bind]. rewrite IH, <- app_assoc. reflexivity.
Qed.

Lemma sweep_eq (f1 f2 f3 : formula_params) (cs : list float) :
  sweep f1 f2 f3 cs = Returns (map (row_at f1 f2 f3) cs).
Proof. unfold sweep. rewrite comparison_loop_eq. reflexivity. Qed.

(** C3: for any three parameter sets and any sequence of samples, the sweep
    returns as many rows as there are samples, in the order of the samples,
    and the row of a sample holds the sample and the three totals that
    [calculate_compensation] returns at that sample. *)
Theorem sweep_rows (f1 f2 f3 : formula_params) (cs : list float) :
  exists rows,
    sweep f1 f2 f3 cs = Returns rows
    /\ List.length rows = List.length cs
    /\ forall i c,
         nth_error cs i = Some c ->
         exists res r1 r2 r3,
           calculate_compensation f1 f2 f3 c = Returns res
           /\ getitem res key1 = Returns r1
           /\ getitem res key2 = Returns r2
           /\ getitem res key3 = Returns r3
           /\ nth_error rows i
              = Some {| Net_Collections := c;
                        Formula_1 := total r1;
                        Formula_2 := total r2;
                        Formula_3 := total r3 |}.
Proof.
  exists (map (row_at f1 f2 f3) cs).
  split; [apply sweep_eq |]. split; [apply length_map |].
  intros i c H.
  exists [ (key1, entry f1 c); (key2, entry f2 c); (key3, entry f3 c) ],
    (entry f1 c), (entry f2 c), (entry f3 c).
  split; [apply calculate_compensation_eq |].
  repeat split. apply (map_nth_error (row_at f1 f2 f3)) in H. exact H.
Qed.

Lemma sweep_samples (f1 f2 f3 : formula_params) (cs : list float) :
  map Net_Collections (map (row_at f1 f2 f3) cs) = cs.
Proof.
  induction cs as [| c cs IH]; [reflexivity |].
  cbn [map]. rewrite IH. reflexivity.
Qed.

(** The point of index [i] of the evenly spaced grid of [num] points from
    [start] to [stop], in exact arithmetic. *)
Definition grid_point (start stop : Q) (num i : nat) : Q :=
  start + inject_Z (Z.of_nat i) * ((stop - start) / inject_Z (Z.of_nat num - 1)).

(** [x] is a finite number within [eps] of [q]. *)
Definition near (eps : Q) (x : float) (q : Q) : bool :=
  match x with
  | Fin v => Qle_bool (Qabs (v - q)) eps
  | _ => false
  end.

(** Every sample is within [eps] of its point of the grid. *)
Definition evenly_spaced (eps start stop : Q) (samples : list float) : bool :=
  forallb
    (fun ix => near eps (snd ix) (grid_point start stop (List.length samples) (fst ix)))
    (combine (seq 0 (List.length samples)) samples).

Fixpoint increasing (samples : list float) : bool :=
  match samples with
  | x :: (y :: _) as rest => flt x y && increasing rest
  | _ => true
  end.

(** C10: the range the chart sweeps has exactly 100 samples; the first is
    100000 and the last 3000000; the samples increase and each is within
    10^-9 of its point of the evenly spaced grid 100000 + i * 2900000 / 99;
    and the chart's table has 100 rows, one per sample, in that order. *)
Theorem chart_sweep_samples :
  List.length collection_range = 100%nat
  /\ nth_error collection_range 0 = Some (Fin 100000)
  /\ nth_error collection_range 99 = Some (Fin 3000000)
  /\ increasing collection_range = true
  /\ evenly_spaced (1 # 1000000000) 100000 3000000 collection_range = true
  /\ forall f1 f2 f3,
       exists rows,
         comparison_df f1 f2 f3 = Returns rows
         /\ List.length rows = 100%nat
         /\ map Net_Collections rows = collection_range.
Proof.
  assert (L : List.length collection_range = 100%nat) by (vm_compute; reflexivity).
  split; [exact L |].
  split; [vm_compute; reflexivity |].
  split; [vm_compute; reflexivity |].
  split; [vm_compute; reflexivity |].
  split; [vm_compute; reflexivity |].
  intros f1 f2 f3. exists (map (row_at f1 f2 f3) collection_range).
  split; [exact (sweep_eq f1 f2 f3 collection_range) |].
  split; [rewrite length_map; exact L |].
  apply sweep_samples.
Qed.

(** *** The properties at concrete inputs *)

(** The widgets' default parameters with a bonus of 30 percent, and two
    other parameter sets. *)
Definition params_a : formula_params :=
  {| base_salary := int 300000; multiplier := int 3; bonus_percentage := int 30 |}.

Definition params_b : formula_params :=
  {| base_salary := int 250000; multiplier := Fin (5 # 2); bonus_percentage := int 40 |}.

Definition params_c : formula_params :=
  {| base_salary := int 0; multiplier := int 1; bonus_percentage := int 100 |}.

Lemma total_at_least_base_witness :
  exists r,
    formula_at Slot2 params_a params_b params_c (int 1000000) = Returns r
    /\ fle (base_salary params_b) (total r) = true
    /\ fle (int 0) (bonus_component r) = true
    /\ Bonus_Threshold (details_ r) = mul (base_salary params_b) (multiplier params_b).
Proof.
  apply (total_at_least_base Slot2 params_a params_b params_c (int 1000000));
    vm_compute; reflexivity.
Defined.

Lemma total_monotone_witness :
  exists r1 r2,
    formula_at Slot1 params_a params_b params_c (int 1000000) = Returns r1
    /\ formula_at Slot1 params_a params_b params_c (int 2000000) = Returns r2
    /\ fle (total r1) (total r2) = true.
Proof.
  apply (total_monotone Slot1 params_a params_b params_c (int 1000000) (int 2000000));
    vm_compute; reflexivity.
Defined.

Lemma total_above_threshold_witness :
  exists r rate,
    formula_at Slot1 params_a params_b params_c (int 1000000) = Returns r
    /\ truediv (bonus_percentage params_a) (int 100) = Returns rate
    /\ Collections_Above_Threshold (details_ r)
       = sub (int 1000000) (Bonus_Threshold (details_ r))
    /\ gt (Collections_Above_Threshold (details_ r)) (int 0) = true
    /\ total r
       = add (base_salary params_a)
           (mul (sub (int 1000000) (Bonus_Threshold (details_ r))) rate)
    /\ (finite (total r) = true ->
        Qabs (value (total r)
              - (value (base_salary params_a)
                 + (value (int 1000000) - value (Bonus_Threshold (details_ r)))
                   * (value (bonus_percentage params_a) / 100)))
        <= pow2 (-53) * (value (base_salary params_a) + 4 * value (int 1000000))
           + pow2 (-1075) * (value (int 1000000) + 3)).
Proof.
  apply (total_above_threshold Slot1 params_a params_b params_c (int 1000000));
    vm_compute; reflexivity.
Defined.

(** At the threshold itself: 300000 * 3 = 900000. *)
Lemma no_bonus_up_to_threshold_witness :
  exists r,
    formula_at Slot1 params_a params_b params_c (int 900000) = Returns r
    /\ bonus_component r = Fin 0
    /\ total r = base_salary params_a.
Proof.
  apply (no_bonus_up_to_threshold Slot1 params_a params_b params_c (int 900000));
    vm_compute; reflexivity.
Defined.

Lemma returns_on_domain_witness :
  exists r,
    formula_at Slot3 params_a params_b params_c (int 200000) = Returns r
    /\ populated r = true.
Proof.
  apply (returns_on_domain Slot3 params_a params_b params_c (int 200000));
    vm_compute; reflexivity.
Defined.

Lemma negative_collections_clamped_witness :
  exists r,
    formula_at Slot1 params_a params_b params_c (int (-50000)) = Returns r
    /\ Collections_Above_Threshold (details_ r) = Fin 0
    /\ bonus_component r = Fin 0
    /\ total r = base_salary params_a.
Proof.
  apply (negative_collections_clamped Slot1 params_a params_b params_c (int (-50000)));
    vm_compute; reflexivity.
Defined.

(** The three scenarios of the specification: threshold, collections above
    it, bonus and total. *)
Definition figures (r : formula_result) : float * float * float * float :=
  (Bonus_Threshold (details_ r), Collections_Above_Threshold (details_ r),
   bonus_component r, total r).

Example scenario_1 :
  formula_at Slot1 params_a params_b params_c (int 1000000)
  = Returns (entry params_a (int 1000000))
  /\ figures (entry params_a (int 1000000))
     = (Fin 900000, Fin 100000, Fin 30000, Fin 330000).
Proof. split; [apply formula_at_eq | vm_compute; reflexivity]. Qed.

Example scenario_2 :
  figures (entry params_a (int 500000)) = (Fin 900000, Fin 0, Fin 0, Fin 300000).
Proof. vm_compute. reflexivity. Qed.

Example scenario_3 :
  figures (entry params_c (int 200000)) = (Fin 0, Fin 200000, Fin 200000, Fin 200000).
Proof. vm_compute. reflexivity. Qed.

(** The bonus is the excess times the rounded rate, as the source groups
    it.  In binary64 the grouping shows: 3 * (10 / 100) is
    0.30000000000000004 and (3 * 10) / 100 is 0.3. *)
Example grouping_of_the_bonus :
  mul (Fin 3) (rate_of (Fin 10)) = Fin (1351079888211149 # 4503599627370496)
  /\ truediv (mul (Fin 3) (Fin 10)) (int 100)
     = Returns (Fin (5404319552844595 # 18014398509481984)).
Proof. split; vm_compute; reflexivity. Qed.

End Properties.

(** ** The program on the machine's floats

    One formula of [calculate_compensation] and the samples of the chart,
    written on Rocq's primitive floats, return what the model returns: at
    the 100 samples of the chart, for three parameter sets (the widgets'
    defaults with a bonus of 30 percent, a multiplier and a percentage that
    are not dyadic fractions, and the largest values of the widgets). *)

Module Reference.
Import Binary64 Python App.
Import PrimFloat.

Definition formula (b m p c : PrimFloat.float)
    : PrimFloat.float * PrimFloat.float * PrimFloat.float * PrimFloat.float :=
  let threshold := (b * m)%float in
  let excess := if (0 <? c - threshold)%float then (c - threshold)%float else 0%float in
  let bonus := (excess * (p / 100))%float in
  (threshold, excess, bonus, (b + bonus)%float).

Fixpoint of_nat (n : nat) : PrimFloat.float :=
  match n with
  | O => 0%float
  | S k => (of_nat k + 1)%float
  end.

Definition chart_samples : list PrimFloat.float :=
  map
    (fun i =>
       if Nat.eqb i 99 then 3000000%float
       else (of_nat i * (2900000 / 99) + 100000)%float)
    (seq 0 100).

Definition parameter_sets
    : list (PrimFloat.float * PrimFloat.float * PrimFloat.float) :=
  [ (300000, 3, 30); (275000, 21 / 10, 333 / 10); (1000000, 5, 100) ]%float.

Definition same4 (x : PrimFloat.float * PrimFloat.float * PrimFloat.float * PrimFloat.float)
    (y : Binary64.float * Binary64.float * Binary64.float * Binary64.float) : bool :=
  let '(x1, x2, x3, x4) := x in
  let '(y1, y2, y3, y4) := y in
  Conformance.same (Conformance.of_prim x1) y1
  && Conformance.same (Conformance.of_prim x2) y2
  && Conformance.same (Conformance.of_prim x3) y3
  && Conformance.same (Conformance.of_prim x4) y4.

Definition agree_at (bmp : PrimFloat.float * PrimFloat.float * PrimFloat.float)
    (c : PrimFloat.float) : bool :=
  let '(b, m, p) := bmp in
  let params :=
    {| base_salary := Conformance.of_prim b;
       multiplier := Conformance.of_prim m;
       bonus_percentage := Conformance.of_prim p |} in
  match formula_at Slot1 params params params (Conformance.of_prim c) with
  | Returns r => same4 (formula b m p c) (Properties.figures r)
  | Raises _ => false
  end.

Example samples_agree :
  map Conformance.of_prim chart_samples = App.collection_range.
Proof. vm_compute. reflexivity. Qed.

Example formulas_agree :
  forallb (fun bmp => forallb (agree_at bmp) chart_samples) parameter_sets = true.
Proof. vm_compute. reflexivity. Qed.

End Reference.

(** ** Further properties of the calculation engine *)

Module Engine.
Import Binary64 Python App Properties.

(** *** The two ends of the bonus percentage *)

Lemma rate_of_0 : rate_of (Fin 0) = Fin 0.
Proof. vm_compute. reflexivity. Qed.

Lemma rate_of_100 : rate_of (Fin 100) = Fin 1.
Proof. vm_compute. reflexivity. Qed.

Lemma mul_one (e : Q) : is_f64 e = true -> mul (Fin e) (Fin 1) = Fin e.
Proof.
  intros H. unfold mul. cbn [fmul]. rewrite (round64_comp (e * 1) e) by ring.
  apply round64_fix, H.
Qed.

Lemma mul_zero_r (e : Q) : mul (Fin e) (Fin 0) = Fin 0.
Proof.
  unfold mul. cbn [fmul]. rewrite (round64_comp (e * 0) 0) by ring. exact round64_0.
Qed.

(** The collections above the threshold on finite collections are finite,
    whatever the threshold. *)
Lemma excess_finite (c : Q) (t : float) :
  is_f64 c = true -> fle (Fin 0) t = true ->
  exists e, excess_of (Fin c) t = Fin e /\ is_f64 e = true /\ 0 <= e.
Proof.
  intros Hc T.
  destruct (excess_cases c t Hc T) as [Z | [tq [e [_ [X [_ [Fe Be]]]]]]].
  - exists 0. split; [exact Z | split; [exact is_f64_0 | apply Qle_refl]].
  - exists e. split; [exact X | split; [exact Fe | lra]].
Qed.

Lemma threshold_nonneg (b m : Q) :
  0 <= b -> 1 <= m -> fle (Fin 0) (mul (Fin b) (Fin m)) = true.
Proof.
  intros Pb Pm.
  destruct (threshold_cases b m Pb Pm) as [[t [-> [_ Pt]]] | ->]; [| reflexivity].
  apply Qle_bool_iff. exact Pt.
Qed.

(** X1: with a bonus percentage of 0, on parameters of the domain and any
    finite collections, negative ones too, the bonus is 0 and the total is
    the base salary.  (Infinite collections give [inf * 0], a NaN.) *)
Theorem zero_percentage_no_bonus
    (s : slot) (f1 f2 f3 : formula_params) (c : float) :
  valid_params (params_of s f1 f2 f3) = true ->
  bonus_percentage (params_of s f1 f2 f3) = Fin 0 ->
  finite c = true ->
  exists r,
    formula_at s f1 f2 f3 c = Returns r
    /\ bonus_component r = Fin 0
    /\ total r = base_salary (params_of s f1 f2 f3).
Proof.
  intros Vp Z Fc. exists (entry (params_of s f1 f2 f3) c).
  split; [apply formula_at_eq |].
  revert Z.
  apply valid_params_inv in Vp. destruct Vp as [b [m [pct [-> [Hb [Hm [Hp [Pb [Pm Pp]]]]]]]]].
  apply finite_inv in Fc. destruct Fc as [cq [-> Hc]].
  cbn [bonus_percentage base_salary]. intros Z. injection Z as ->.
  destruct (entry_fields (Fin b) (Fin m) (Fin 0) (Fin cq)) as [-> [-> _]].
  destruct (excess_finite cq _ Hc (threshold_nonneg b m Pb Pm)) as [e [-> _]].
  rewrite rate_of_0, mul_zero_r.
  split; [reflexivity | apply total_zero_bonus, Hb].
Qed.

(** X2: with a bonus percentage of 100 the rate is exactly 1: the bonus is
    the collections above the threshold, a finite number, and the total is
    the base salary plus them, rounded once. *)
Theorem full_percentage_bonus_is_excess
    (s : slot) (f1 f2 f3 : formula_params) (c : float) :
  valid_params (params_of s f1 f2 f3) = true ->
  bonus_percentage (params_of s f1 f2 f3) = Fin 100 ->
  finite c = true ->
  exists r,
    formula_at s f1 f2 f3 c = Returns r
    /\ finite (Collections_Above_Threshold (details_ r)) = true
    /\ bonus_component r = Collections_Above_Threshold (details_ r)
    /\ total r
       = add (base_salary (params_of s f1 f2 f3))
           (Collections_Above_Threshold (details_ r)).
Proof.
  intros Vp Z Fc. exists (entry (params_of s f1 f2 f3) c).
  split; [apply formula_at_eq |].
  revert Z.
  apply valid_params_inv in Vp. destruct Vp as [b [m [pct [-> [Hb [Hm [Hp [Pb [Pm Pp]]]]]]]]].
  apply finite_inv in Fc. destruct Fc as [cq [-> Hc]].
  cbn [bonus_percentage base_salary]. intros Z. injection Z as ->.
  destruct (entry_fields (Fin b) (Fin m) (Fin 100) (Fin cq)) as [-> [-> [_ [-> _]]]].
  destruct (excess_finite cq _ Hc (threshold_nonneg b m Pb Pm)) as [e [-> [Fe _]]].
  rewrite rate_of_100, (mul_one e Fe). cbn [finite]. auto.
Qed.

(** The rate grows with the percentage. *)
Lemma rate_mono (p1 p2 k1 k2 : Q) :
  p1 <= p2 -> rate_of (Fin p1) = Fin k1 -> rate_of (Fin p2) = Fin k2 -> k1 <= k2.
Proof.
  intros L E1 E2. rewrite rate_of_Fin in E1, E2.
  assert (M : p1 / 100 <= p2 / 100).
  { assert (A : p1 / 100 == p1 * (1 # 100)) by reflexivity.
    assert (B : p2 / 100 == p2 * (1 # 100)) by reflexivity.
    rewrite A, B. lra. }
  apply round64_le in M. rewrite E1, E2 in M. apply Qle_bool_iff in M. exact M.
Qed.

(** The total grows with the bonus. *)
Lemma total_mono_bonus (b bo1 bo2 : Q) :
  bo1 <= bo2 -> fle (add (Fin b) (Fin bo1)) (add (Fin b) (Fin bo2)) = true.
Proof. intros L. unfold add. cbn [fadd]. apply round64_le. lra. Qed.

(** The bonus grows with the collections above the threshold and with the
    rate. *)
Lemma bonus_mono (e1 e2 k1 k2 bo1 bo2 : Q) :
  0 <= e1 <= e2 -> 0 <= k1 <= k2 ->
  mul (Fin e1) (Fin k1) = Fin bo1 -> mul (Fin e2) (Fin k2) = Fin bo2 -> bo1 <= bo2.
Proof.
  intros He Hk E1 E2. unfold mul in E1, E2. cbn [fmul] in E1, E2.
  assert (M : e1 * k1 <= e2 * k2) by nra.
  apply round64_le in M. rewrite E1, E2 in M. apply Qle_bool_iff in M. exact M.
Qed.

(** X3: with the same base salary, multiplier and collections, a larger
    bonus percentage gives a bonus and a total that are at least as
    large. *)
Theorem total_monotone_in_percentage
    (s : slot) (f1 f2 f3 g1 g2 g3 : formula_params) (c : float) :
  valid_params (params_of s f1 f2 f3) = true ->
  valid_params (params_of s g1 g2 g3) = true ->
  base_salary (params_of s f1 f2 f3) = base_salary (params_of s g1 g2 g3) ->
  multiplier (params_of s f1 f2 f3) = multiplier (params_of s g1 g2 g3) ->
  fle (bonus_percentage (params_of s f1 f2 f3))
      (bonus_percentage (params_of s g1 g2 g3)) = true ->
  finite c = true ->
  exists r1 r2,
    formula_at s f1 f2 f3 c = Returns r1
    /\ formula_at s g1 g2 g3 c = Returns r2
    /\ fle (bonus_component r1) (bonus_component r2) = true
    /\ fle (total r1) (total r2) = true.
Proof.
  intros Vf Vg Eb Em L Fc.
  exists (entry (params_of s f1 f2 f3) c), (entry (params_of s g1 g2 g3) c).
  split; [apply formula_at_eq |]. split; [apply formula_at_eq |].
  revert Eb Em L.
  apply valid_params_inv in Vf. destruct Vf as [b [m [p1 [-> [Hb [Hm [Hp1 [Pb [Pm Pp1]]]]]]]]].
  apply valid_params_inv in Vg. destruct Vg as [b' [m' [p2 [-> [_ [_ [Hp2 [_ [_ Pp2]]]]]]]]].
  apply finite_inv in Fc. destruct Fc as [cq [-> Hc]].
  cbn [base_salary multiplier bonus_percentage fle]. intros Eb Em L.
  injection Eb as <-. injection Em as <-. apply Qle_bool_iff in L.
  destruct (entry_fields (Fin b) (Fin m) (Fin p1) (Fin cq)) as [-> [-> _]].
  destruct (entry_fields (Fin b) (Fin m) (Fin p2) (Fin cq)) as [-> [-> _]].
  destruct (excess_finite cq _ Hc (threshold_nonneg b m Pb Pm)) as [e [-> [Fe Pe]]].
  destruct (rate_valid p1 Pp1) as [k1 [Ek1 [_ Bk1]]].
  destruct (rate_valid p2 Pp2) as [k2 [Ek2 [_ Bk2]]].
  pose proof (rate_mono p1 p2 k1 k2 L Ek1 Ek2) as Lk.
  rewrite Ek1, Ek2.
  destruct (bonus_bounds e k1 Fe Pe Bk1) as [bo1 [E1 _]].
  destruct (bonus_bounds e k2 Fe Pe Bk2) as [bo2 [E2 _]].
  assert (Lbo : bo1 <= bo2).
  { apply (bonus_mono e e k1 k2 bo1 bo2); try assumption; lra. }
  rewrite E1, E2. split.
  - apply Qle_bool_iff. exact Lbo.
  - apply total_mono_bonus, Lbo.
Qed.

(** The collections above the threshold shrink when the threshold grows. *)
Lemma excess_antitone (c : Q) (t1 t2 : float) (e1 e2 : Q) :
  is_f64 c = true -> fle (Fin 0) t1 = true -> fle (Fin 0) t2 = true ->
  fle t1 t2 = true ->
  excess_of (Fin c) t1 = Fin e1 -> excess_of (Fin c) t2 = Fin e2 -> e2 <= e1.
Proof.
  intros Hc T1 T2 L E1 E2.
  assert (P1 : 0 <= e1).
  { destruct (excess_finite c t1 Hc T1) as [e [X [_ P]]].
    rewrite X in E1. injection E1 as <-. exact P. }
  destruct (excess_cases c t2 Hc T2) as [Z | [tq2 [e [-> [X [R [_ B]]]]]]].
  - rewrite Z in E2. injection E2 as <-. exact P1.
  - rewrite X in E2. injection E2 as <-.
    destruct t1 as [tq1 | | |]; cbn in T1, L; try discriminate.
    apply Qle_bool_iff in L.
    assert (M : c + - tq2 <= c + - tq1) by lra.
    apply round64_le in M. rewrite R in M.
    rewrite excess_of_eq in E1. cbn [fsub fneg fadd] in E1.
    destruct (round64 (c + - tq1)) as [x | | |]; cbn in M; try discriminate.
    apply Qle_bool_iff in M.
    assert (G : flt (Fin 0) (Fin x) = true) by (apply Qlt_bool_iff; lra).
    rewrite G in E1. injection E1 as <-. exact M.
Qed.

(** X4: with the same base salary, bonus percentage and collections, a
    larger multiplier gives a threshold at least as large and a total at
    most as large. *)
Theorem total_antitone_in_multiplier
    (s : slot) (f1 f2 f3 g1 g2 g3 : formula_params) (c : float) :
  valid_params (params_of s f1 f2 f3) = true ->
  valid_params (params_of s g1 g2 g3) = true ->
  base_salary (params_of s f1 f2 f3) = base_salary (params_of s g1 g2 g3) ->
  bonus_percentage (params_of s f1 f2 f3) = bonus_percentage (params_of s g1 g2 g3) ->
  fle (multiplier (params_of s f1 f2 f3)) (multiplier (params_of s g1 g2 g3)) = true ->
  finite c = true ->
  exists r1 r2,
    formula_at s f1 f2 f3 c = Returns r1
    /\ formula_at s g1 g2 g3 c = Returns r2
    /\ fle (Bonus_Threshold (details_ r1)) (Bonus_Threshold (details_ r2)) = true
    /\ fle (total r2) (total r1) = true.
Proof.
  intros Vf Vg Eb Ep L Fc.
  exists (entry (params_of s f1 f2 f3) c), (entry (params_of s g1 g2 g3) c).
  split; [apply formula_at_eq |]. split; [apply formula_at_eq |].
  revert Eb Ep L.
  apply valid_params_inv in Vf. destruct Vf as [b [m1 [p [-> [Hb [Hm1 [Hp [Pb [Pm1 Pp]]]]]]]]].
  apply valid_params_inv in Vg. destruct Vg as [b' [m2 [p' [-> [_ [Hm2 [_ [_ [Pm2 _]]]]]]]]].
  apply finite_inv in Fc. destruct Fc as [cq [-> Hc]].
  cbn [base_salary multiplier bonus_percentage fle]. intros Eb Ep L.
  injection Eb as <-. injection Ep as <-. apply Qle_bool_iff in L.
  destruct (entry_fields (Fin b) (Fin m1) (Fin p) (Fin cq)) as [_ [-> [-> _]]].
  destruct (entry_fields (Fin b) (Fin m2) (Fin p) (Fin cq)) as [_ [-> [-> _]]].
  pose proof (threshold_nonneg b m1 Pb Pm1) as T1.
  pose proof (threshold_nonneg b m2 Pb Pm2) as T2.
  assert (LT : fle (mul (Fin b) (Fin m1)) (mul (Fin b) (Fin m2)) = true).
  { unfold mul. cbn [fmul]. apply round64_le. nra. }
  destruct (excess_finite cq _ Hc T1) as [e1 [E1 [Fe1 Pe1]]].
  destruct (excess_finite cq _ Hc T2) as [e2 [E2 [Fe2 Pe2]]].
  pose proof (excess_antitone cq _ _ e1 e2 Hc T1 T2 LT E1 E2) as Le.
  rewrite E1, E2.
  destruct (rate_valid p Pp) as [k [-> [_ Bk]]].
  destruct (bonus_bounds e1 k Fe1 Pe1 Bk) as [bo1 [B1 _]].
  destruct (bonus_bounds e2 k Fe2 Pe2 Bk) as [bo2 [B2 _]].
  assert (Lbo : bo2 <= bo1).
  { apply (bonus_mono e2 e1 k k bo2 bo1); try assumption; lra. }
  rewrite B1, B2. split; [exact LT | apply total_mono_bonus, Lbo].
Qed.

(** X5: on the domain the bonus is at most the collections above the
    threshold, these are at most the collections, and the total is at most
    the base salary plus the collections. *)
Theorem bonus_and_total_bounds
    (s : slot) (f1 f2 f3 : formula_params) (c : float) :
  valid_params (params_of s f1 f2 f3) = true ->
  valid_collections c = true ->
  exists r,
    formula_at s f1 f2 f3 c = Returns r
    /\ fle (bonus_component r) (Collections_Above_Threshold (details_ r)) = true
    /\ fle (Collections_Above_Threshold (details_ r)) c = true
    /\ fle (total r) (add (base_salary (params_of s f1 f2 f3)) c) = true.
Proof.
  intros Vp Vc. exists (entry (params_of s f1 f2 f3) c).
  split; [apply formula_at_eq |].
  apply valid_params_inv in Vp. destruct Vp as [b [m [pct [-> [Hb [Hm [Hp [Pb [Pm Pp]]]]]]]]].
  apply valid_collections_inv in Vc. destruct Vc as [cq [-> [Hc Pc]]].
  destruct (entry_fields (Fin b) (Fin m) (Fin pct) (Fin cq)) as [-> [-> [_ [-> _]]]].
  cbn [base_salary].
  assert (E : exists e, excess_of (Fin cq) (mul (Fin b) (Fin m)) = Fin e
                        /\ is_f64 e = true /\ 0 <= e <= cq).
  { destruct (excess_cases cq _ Hc (threshold_nonneg b m Pb Pm))
      as [Z | [tq [e [_ [X [_ [Fe Be]]]]]]].
    - exists 0. split; [exact Z | split; [exact is_f64_0 | lra]].
    - exists e. split; [exact X | split; [exact Fe | lra]]. }
  destruct E as [e [-> [Fe Be]]].
  destruct (rate_valid pct Pp) as [k [-> [_ Bk]]].
  destruct (bonus_bounds e k Fe (proj1 Be) Bk) as [bo [-> [_ Bbo]]].
  split; [apply Qle_bool_iff; lra |].
  split; [apply Qle_bool_iff; lra |].
  apply total_mono_bonus. lra.
Qed.



(** *** The properties at concrete inputs *)

Definition params_zero : formula_params :=
  {| base_salary := int 300000; multiplier := int 3; bonus_percentage := Fin 0 |}.

Definition params_full : formula_params :=
  {| base_salary := int 300000; multiplier := int 3; bonus_percentage := Fin 100 |}.

Definition params_wide : formula_params :=
  {| base_salary := int 300000; multiplier := Fin (7 # 2); bonus_percentage := int 30 |}.

Lemma zero_percentage_no_bonus_witness :
  exists r,
    formula_at Slot1 params_zero params_b params_c (int 2000000) = Returns r
    /\ bonus_component r = Fin 0
    /\ total r = base_salary params_zero.
Proof.
  apply (zero_percentage_no_bonus Slot1 params_zero params_b params_c (int 2000000));
    vm_compute; reflexivity.
Defined.

Lemma full_percentage_bonus_is_excess_witness :
  exists r,
    formula_at Slot1 params_full params_b params_c (int 2000000) = Returns r
    /\ finite (Collections_Above_Threshold (details_ r)) = true
    /\ bonus_component r = Collections_Above_Threshold (details_ r)
    /\ total r = add (base_salary params_full) (Collections_Above_Threshold (details_ r)).
Proof.
  apply (full_percentage_bonus_is_excess Slot1 params_full params_b params_c (int 2000000));
    vm_compute; reflexivity.
Defined.

Lemma total_monotone_in_percentage_witness :
  exists r1 r2,
    formula_at Slot1 params_a params_b params_c (int 2000000) = Returns r1
    /\ formula_at Slot1 params_full params_b params_c (int 2000000) = Returns r2
    /\ fle (bonus_component r1) (bonus_component r2) = true
    /\ fle (total r1) (total r2) = true.
Proof.
  apply (total_monotone_in_percentage Slot1 params_a params_b params_c
           params_full params_b params_c (int 2000000));
    vm_compute; reflexivity.
Defined.

Lemma total_antitone_in_multiplier_witness :
  exists r1 r2,
    formula_at Slot1 params_a params_b params_c (int 2000000) = Returns r1
    /\ formula_at Slot1 params_wide params_b params_c (int 2000000) = Returns r2
    /\ fle (Bonus_Threshold (details_ r1)) (Bonus_Threshold (details_ r2)) = true
    /\ fle (total r2) (total r1) = true.
Proof.
  apply (total_antitone_in_multiplier Slot1 params_a params_b params_c
           params_wide params_b params_c (int 2000000));
    vm_compute; reflexivity.
Defined.

Lemma bonus_and_total_bounds_witness :
  exists r,
    formula_at Slot2 params_a params_b params_c (int 2000000) = Returns r
    /\ fle (bonus_component r) (Collections_Above_Threshold (details_ r)) = true
    /\ fle (Collections_Above_Threshold (details_ r)) (int 2000000) = true
    /\ fle (total r) (add (base_salary params_b) (int 2000000)) = true.
Proof.
  apply (bonus_and_total_bounds Slot2 params_a params_b params_c (int 2000000));
    vm_compute; reflexivity.
Defined.


End Engine.

(** ** The curves of the chart *)

Module Chart.
Import Binary64 Python App Properties Engine.

(** The total of one formula grows with the collections. *)
Lemma entry_total_mono (p : formula_params) (c1 c2 : float) :
  valid_params p = true -> valid_collections c1 = true -> valid_collections c2 = true ->
  fle c1 c2 = true -> fle (total (entry p c1)) (total (entry p c2)) = true.
Proof.
  intros Vp V1 V2 L.
  apply valid_params_inv in Vp. destruct Vp as [b [m [pct [-> [Hb [Hm [Hp [Pb [Pm Pp]]]]]]]]].
  apply valid_collections_inv in V1. destruct V1 as [q1 [-> [H1 P1]]].
  apply valid_collections_inv in V2. destruct V2 as [q2 [-> [H2 P2]]].
  cbn [fle] in L. apply Qle_bool_iff in L.
  destruct (entry_fields (Fin b) (Fin m) (Fin pct) (Fin q1)) as [_ [-> _]].
  destruct (entry_fields (Fin b) (Fin m) (Fin pct) (Fin q2)) as [_ [-> _]].
  pose proof (threshold_nonneg b m Pb Pm) as T.
  destruct (excess_finite q1 _ H1 T) as [e1 [E1 [Fe1 Pe1]]].
  destruct (excess_finite q2 _ H2 T) as [e2 [E2 [Fe2 Pe2]]].
  pose proof (excess_mono q1 q2 _ e1 e2 H1 H2 T L E1 E2) as Le.
  rewrite E1, E2.
  destruct (rate_valid pct Pp) as [k [-> [_ Bk]]].
  destruct (bonus_bounds e1 k Fe1 Pe1 Bk) as [bo1 [B1 _]].
  destruct (bonus_bounds e2 k Fe2 Pe2 Bk) as [bo2 [B2 _]].
  assert (Lbo : bo1 <= bo2).
  { apply (bonus_mono e1 e2 k k bo1 bo2); try assumption; lra. }
  rewrite B1, B2. apply total_mono_bonus, Lbo.
Qed.

Lemma flt_trans (x y z : float) : flt x y = true -> flt y z = true -> flt x z = true.
Proof.
  destruct x as [a | | |], y as [b | | |], z as [c | | |]; cbn; try discriminate; try reflexivity.
  rewrite !Qlt_bool_iff. intros. lra.
Qed.

Lemma flt_fle (x y : float) : flt x y = true -> fle x y = true.
Proof.
  destruct x as [a | | |], y as [b | | |]; cbn; try discriminate; try reflexivity.
  rewrite Qlt_bool_iff. intros. apply Qle_bool_iff. lra.
Qed.

Lemma increasing_tail (x : float) (l : list float) :
  increasing (x :: l) = true -> increasing l = true.
Proof.
  destruct l as [| y l]; [reflexivity |].
  intros H. change (flt x y && increasing (y :: l) = true) in H.
  apply andb_prop in H. apply H.
Qed.

Lemma increasing_head (x : float) (l : list float) (j : nat) (y : float) :
  increasing (x :: l) = true -> nth_error l j = Some y -> flt x y = true.
Proof.
  revert x j. induction l as [| z l IH]; intros x j H N.
  - destruct j; discriminate.
  - change (flt x z && increasing (z :: l) = true) in H.
    apply andb_prop in H. destruct H as [H1 H2].
    destruct j as [| j].
    + injection N as <-. exact H1.
    + apply flt_trans with z; [exact H1 | apply (IH z j H2 N)].
Qed.

Lemma increasing_nth (l : list float) (i j : nat) (x y : float) :
  increasing l = true -> (i < j)%nat ->
  nth_error l i = Some x -> nth_error l j = Some y -> flt x y = true.
Proof.
  revert i j. induction l as [| z l IH]; intros i j H L Ni Nj.
  - destruct i; discriminate.
  - destruct j as [| j]; [lia |]. destruct i as [| i].
    + injection Ni as <-. apply (increasing_head z l j y H Nj).
    + apply (IH i j (increasing_tail z l H)); [lia | exact Ni | exact Nj].
Qed.

(** X8: over parameters of the domain and an increasing range of samples
    of the domain, each of the three curves of the chart is non-decreasing
    from row to row. *)
Theorem chart_curves_nondecreasing
    (f1 f2 f3 : formula_params) (cs : list float) :
  valid_params f1 = true -> valid_params f2 = true -> valid_params f3 = true ->
  forallb valid_collections cs = true -> increasing cs = true ->
  exists rows,
    sweep f1 f2 f3 cs = Returns rows
    /\ forall i j ri rj,
         (i <= j)%nat -> nth_error rows i = Some ri -> nth_error rows j = Some rj ->
         fle (Formula_1 ri) (Formula_1 rj) = true
         /\ fle (Formula_2 ri) (Formula_2 rj) = true
         /\ fle (Formula_3 ri) (Formula_3 rj) = true.
Proof.
  intros V1 V2 V3 Vc Inc. exists (map (row_at f1 f2 f3) cs).
  split; [apply sweep_eq |].
  intros i j ri rj L Ni Nj.
  rewrite nth_error_map in Ni, Nj.
  destruct (nth_error cs i) as [ci |] eqn:Ci; [| discriminate].
  destruct (nth_error cs j) as [cj |] eqn:Cj; [| discriminate].
  cbn in Ni, Nj. injection Ni as <-. injection Nj as <-.
  rewrite forallb_forall in Vc.
  assert (Vi : valid_collections ci = true) by (apply Vc; eapply nth_error_In; eauto).
  assert (Vj : valid_collections cj = true) by (apply Vc; eapply nth_error_In; eauto).
  assert (Lc : fle ci cj = true).
  { destruct (Nat.eq_dec i j) as [E | N].
    - subst j. rewrite Ci in Cj. injection Cj as <-.
      apply valid_collections_inv in Vi. destruct Vi as [q [-> _]].
      cbn. apply Qle_bool_iff, Qle_refl.
    - apply flt_fle. apply (increasing_nth cs i j ci cj Inc); [lia | exact Ci | exact Cj]. }
  cbn [row_at Formula_1 Formula_2 Formula_3].
  repeat split; apply entry_total_mono; assumption.
Qed.

(** X9: the sweep of an empty range has no rows, and the sweep of two
    ranges one after the other is the rows of the first followed by the rows
    of the second: a row depends on its own sample only. *)
Theorem sweep_of_appended_ranges
    (f1 f2 f3 : formula_params) (xs ys : list float) :
  sweep f1 f2 f3 [] = Returns []
  /\ exists rows_x rows_y,
       sweep f1 f2 f3 xs = Returns rows_x
       /\ sweep f1 f2 f3 ys = Returns rows_y
       /\ sweep f1 f2 f3 (xs ++ ys) = Returns (rows_x ++ rows_y).
Proof.
  split; [reflexivity |].
  exists (map (row_at f1 f2 f3) xs), (map (row_at f1 f2 f3) ys).
  rewrite !sweep_eq, map_app. auto.
Qed.

(** *** The properties at concrete inputs *)

Lemma chart_curves_nondecreasing_witness :
  exists rows,
    sweep params_a params_b params_c [int 100000; int 1000000; int 3000000]
    = Returns rows
    /\ forall i j ri rj,
         (i <= j)%nat -> nth_error rows i = Some ri -> nth_error rows j = Some rj ->
         fle (Formula_1 ri) (Formula_1 rj) = true
         /\ fle (Formula_2 ri) (Formula_2 rj) = true
         /\ fle (Formula_3 ri) (Formula_3 rj) = true.
Proof.
  apply (chart_curves_nondecreasing params_a params_b params_c
           [int 100000; int 1000000; int 3000000]);
    vm_compute; reflexivity.
Defined.

End Chart.

(** ** The ints of the program as floats *)

Module Integers.
Import Binary64 Python App Properties.

Lemma Qred_inject_Z (z : Z) : Qred (inject_Z z) = inject_Z z.
Proof.
  unfold inject_Z, Qred.
  pose proof (Z.ggcd_correct_divisors z 1) as D.
  pose proof (Z.ggcd_gcd z 1) as G. rewrite Z.gcd_1_r in G.
  destruct (Z.ggcd z 1) as [g [aa bb]]. cbn [fst] in G. cbn [snd].
  subst g. destruct D as [D1 D2].
  replace aa with z by lia. replace bb with 1%Z by lia. reflexivity.
Qed.

(** Every integer of at most 53 bits is a binary64 number. *)
Lemma round64u_int_pos (z : Z) :
  (0 < z <= 2 ^ 53)%Z -> round64u (inject_Z z) == inject_Z z.
Proof.
  intros [Z0 Z1].
  destruct (Z.eq_dec z (2 ^ 53)) as [E | N].
  - subst z.
    assert (E : inject_Z (2 ^ 53) == inject_Z (2 ^ 53) * pow2 0)
      by (change (pow2 0) with 1; ring).
    transitivity (round64u (inject_Z (2 ^ 53) * pow2 0)); [apply round64u_comp, E |].
    transitivity (inject_Z (2 ^ 53) * pow2 0); [| symmetry; exact E].
    apply round64u_fix; [unfold emin; lia | lia |].
    intros H. exfalso. assert ((2 ^ 52 < 2 ^ 53)%Z) by reflexivity. lia.
  - destruct (Z.log2_spec z Z0) as [L1 L2]. set (l := Z.log2 z) in *.
    assert (Hl0 : (0 <= l)%Z) by apply Z.log2_nonneg.
    assert (Hl : (l <= 52)%Z).
    { destruct (Z.le_gt_cases l 52) as [H | H]; [exact H | exfalso].
      assert (P : (2 ^ 53 <= 2 ^ l)%Z) by (apply Z.pow_le_mono_r; lia). lia. }
    assert (E : inject_Z z == inject_Z (z * 2 ^ (52 - l)) * pow2 (l - 52)).
    { rewrite inject_Z_mult, <- pow2_Z by lia.
      rewrite <- Qmult_assoc, <- pow2_add.
      replace (52 - l + (l - 52))%Z with 0%Z by lia. change (pow2 0) with 1. ring. }
    transitivity (round64u (inject_Z (z * 2 ^ (52 - l)) * pow2 (l - 52)));
      [apply round64u_comp, E |].
    transitivity (inject_Z (z * 2 ^ (52 - l)) * pow2 (l - 52)); [| symmetry; exact E].
    apply round64u_fix.
    + unfold emin. lia.
    + split; [nia |].
      replace (2 ^ 53)%Z with (2 ^ (l + 1) * 2 ^ (52 - l))%Z
        by (rewrite <- Z.pow_add_r by lia; f_equal; lia).
      apply Z.mul_le_mono_nonneg_r; [apply Z.pow_nonneg; lia |].
      replace (l + 1)%Z with (Z.succ l) by lia. lia.
    + intros H. exfalso.
      assert (P : (2 ^ 52 <= z * 2 ^ (52 - l))%Z); [| lia].
      replace (2 ^ 52)%Z with (2 ^ l * 2 ^ (52 - l))%Z
        by (rewrite <- Z.pow_add_r by lia; f_equal; lia).
      apply Z.mul_le_mono_nonneg_r; [apply Z.pow_nonneg; lia | exact L1].
Qed.

Lemma is_f64_int (z : Z) : (Z.abs z <= 2 ^ 53)%Z -> is_f64 (inject_Z z) = true.
Proof.
  intros H.
  assert (P : forall w, (0 < w <= 2 ^ 53)%Z -> is_f64 (inject_Z w) = true).
  { intros w Hw. apply is_f64_spec. split; [apply Qred_inject_Z |].
    split; [apply round64u_int_pos, Hw |].
    rewrite Qabs_pos by (rewrite <- (Zle_Qle 0); lia).
    apply Qle_lt_trans with (inject_Z (2 ^ 53)); [rewrite <- Zle_Qle; lia |].
    rewrite <- pow2_Z by lia. apply pow2_lt. unfold emax. lia. }
  destruct (Z.lt_trichotomy z 0) as [N | [E | Q]].
  - assert (E : inject_Z z = - inject_Z (- z)).
    { unfold inject_Z, Qopp. cbn. rewrite Z.opp_involutive. reflexivity. }
    rewrite E. apply is_f64_opp, P. lia.
  - subst z. exact is_f64_0.
  - apply P. lia.
Qed.

(** X10: an int of magnitude up to [2^53] converts to the float of the same
    value, without rounding; so do all the ints the program pairs with
    floats (the widgets' values are at most 3,000,000). *)
Theorem int_to_float_exact (z : Z) :
  (Z.abs z <= 2 ^ 53)%Z ->
  int z = Fin (inject_Z z) /\ finite (int z) = true.
Proof.
  intros H. pose proof (is_f64_int z H) as F.
  unfold int, of_Z. rewrite (round64_fix _ F). split; [reflexivity | exact F].
Qed.

Lemma int_to_float_exact_witness :
  int 3000000 = Fin (inject_Z 3000000) /\ finite (int 3000000) = true.
Proof. apply (int_to_float_exact 3000000). vm_compute. discriminate. Defined.

End Integers.

(** ** The ends of [np.linspace] *)

Module Range.
Import Binary64 Python Numpy App Properties.

Lemma set_last_length (y : list float) (stop : float) :
  y <> [] -> List.length (set_last y stop) = List.length y.
Proof.
  intros N. unfold set_last.
  rewrite (app_removelast_last NaN N) at 2. rewrite !length_app. reflexivity.
Qed.

Lemma set_last_last (y : list float) (stop : float) :
  y <> [] -> nth_error (set_last y stop) (List.length y - 1) = Some stop.
Proof.
  intros N. unfold set_last.
  assert (L : List.length (removelast y) = (List.length y - 1)%nat).
  { rewrite (app_removelast_last NaN N) at 2. rewrite length_app. cbn. lia. }
  rewrite nth_error_app2 by lia. rewrite L, Nat.sub_diag. reflexivity.
Qed.

Lemma set_last_first (a b : float) (y : list float) (stop : float) :
  nth_error (set_last (a :: b :: y) stop) 0 = Some a.
Proof. reflexivity. Qed.

Lemma fmul_0_l (s : Q) : fmul (Fin 0) (Fin s) = Fin 0.
Proof. cbn [fmul]. rewrite (round64_comp (0 * s) 0) by ring. exact round64_0. Qed.

Lemma fadd_0_l (a : Q) : is_f64 a = true -> fadd (Fin 0) (Fin a) = Fin a.
Proof.
  intros H. cbn [fadd]. rewrite (round64_comp (0 + a) a) by ring.
  apply round64_fix, H.
Qed.

(** The float of a count of at least one is a number of at least one, or
    the infinity. *)
Lemma of_Z_count (z : Z) :
  (1 <= z)%Z -> (exists r, of_Z z = Fin r /\ 1 <= r) \/ of_Z z = PInf.
Proof.
  intros H.
  assert (L : fle (Fin 1) (of_Z z) = true).
  { apply round64_ge_Fin; [exact is_f64_1 |].
    change 1 with (inject_Z 1). rewrite <- Zle_Qle. exact H. }
  destruct (of_Z z) as [r | | |]; cbn in L; try discriminate.
  - left. exists r. split; [reflexivity | apply Qle_bool_iff, L].
  - right. reflexivity.
Qed.

(** A step of [linspace] over a finite distance is finite. *)
Lemma step_finite (d : Q) (z : Z) :
  is_f64 d = true -> (1 <= z)%Z ->
  exists s, true_divide (Fin d) (of_Z z) = Fin s.
Proof.
  intros Hd Hz. unfold true_divide.
  destruct (of_Z_count z Hz) as [[r [-> R]] | ->].
  - unfold fdiv.
    assert (NZ : is_zero (Fin r) = false).
    { cbn. apply not_true_is_false. intros E. apply Qeq_bool_iff in E. lra. }
    rewrite NZ.
    destruct (round64_between (d / r) (- Qabs d) (Qabs d)) as [s [-> _]].
    + apply is_f64_opp, is_f64_abs, Hd.
    + apply is_f64_abs, Hd.
    + assert (I : 0 < / r <= 1).
      { split; [apply Qinv_lt_0_compat; lra |].
        apply Qle_shift_inv_r; lra. }
      unfold Qdiv. set (i := / r) in *. clearbody i.
      revert I. apply Qabs_case; intros; nra.
    + eauto.
  - exists 0. reflexivity.
Qed.

Lemma true_divide_0 (z : Z) :
  (1 <= z)%Z -> true_divide (Fin 0) (of_Z z) = Fin 0.
Proof.
  intros Hz. unfold true_divide.
  destruct (of_Z_count z Hz) as [[r [-> R]] | ->]; [| reflexivity].
  unfold fdiv.
  assert (NZ : is_zero (Fin r) = false).
  { cbn. apply not_true_is_false. intros E. apply Qeq_bool_iff in E. lra. }
  rewrite NZ. rewrite (round64_comp (0 / r) 0); [exact round64_0 |].
  unfold Qdiv. ring.
Qed.

(** X11: [np.linspace(start, stop, num)] with at least two samples, from a
    finite [start] over a finite distance [stop - start], has [num] samples;
    the first is [start] and the last is [stop], both exactly. *)
Theorem linspace_endpoints (start stop : float) (num : nat) :
  (2 <= num)%nat -> finite start = true -> finite (fsub stop start) = true ->
  List.length (linspace start stop num) = num
  /\ nth_error (linspace start stop num) 0 = Some start
  /\ nth_error (linspace start stop num) (num - 1) = Some stop.
Proof.
  intros Hn Fs Fd.
  apply finite_inv in Fs. destruct Fs as [a [-> Ha]].
  apply finite_inv in Fd. destruct Fd as [d [Ed Hd]].
  unfold linspace. rewrite Ed.
  assert (D : (0 <? Z.of_nat num - 1)%Z = true) by (apply Z.ltb_lt; lia).
  assert (N1 : (1 <? num)%nat = true) by (apply Nat.ltb_lt; lia).
  rewrite D, N1.
  set (div := (Z.of_nat num - 1)%Z) in *.
  assert (Hdiv : (1 <= div)%Z) by (unfold div; lia).
  set (g := fun v : float =>
              if is_zero (true_divide (Fin d) (of_Z div))
              then fmul (true_divide v (of_Z div)) (Fin d)
              else fmul v (true_divide (Fin d) (of_Z div))).
  set (y := map (fun v => fadd v (Fin a))
              (if is_zero (true_divide (Fin d) (of_Z div))
               then map (fun v => fmul (true_divide v (of_Z div)) (Fin d)) (arange num)
               else map (fun v => fmul v (true_divide (Fin d) (of_Z div))) (arange num))).
  assert (Y : y = map (fun v => fadd (g v) (Fin a)) (arange num)).
  { unfold y, g. destruct (is_zero _); rewrite map_map; reflexivity. }
  assert (G0 : g (Fin 0) = Fin 0).
  { unfold g. destruct (is_zero (true_divide (Fin d) (of_Z div))) eqn:Z.
    - rewrite (true_divide_0 div Hdiv). apply fmul_0_l.
    - destruct (step_finite d div Hd Hdiv) as [s ->]. apply fmul_0_l. }
  assert (Ly : List.length y = num).
  { rewrite Y. unfold arange. rewrite !length_map, length_seq. reflexivity. }
  assert (Ny : y <> []) by (intros E; rewrite E in Ly; cbn in Ly; lia).
  split; [rewrite set_last_length, Ly by exact Ny; reflexivity |].
  split;
    [| replace (num - 1)%nat with (List.length y - 1)%nat by (rewrite Ly; reflexivity);
       apply set_last_last, Ny].
  destruct num as [| [| n]]; [lia | lia |].
  rewrite Y. unfold arange. cbn [seq map].
  rewrite set_last_first. f_equal.
  change (of_Z (Z.of_nat 0)) with (of_Z 0). rewrite of_Z_0, G0.
  apply fadd_0_l, Ha.
Qed.

Lemma linspace_endpoints_witness :
  List.length (linspace (int 100000) (int 3000000) 100) = 100%nat
  /\ nth_error (linspace (int 100000) (int 3000000) 100) 0 = Some (int 100000)
  /\ nth_error (linspace (int 100000) (int 3000000) 100) (100 - 1) = Some (int 3000000).
Proof.
  apply (linspace_endpoints (int 100000) (int 3000000) 100);
    [lia | vm_compute; reflexivity | vm_compute; reflexivity].
Defined.

End Range.

(** ** The markers of the current collections (app.py, lines 336-348) *)

Module Marker.
Import Binary64 Python App Properties Engine Chart Integers.

(** [x == y] on floats: false when an operand is a NaN. *)
Definition feq (x y : float) : bool :=
  match x, y with
  | Fin a, Fin b => Qeq_bool a b
  | PInf, PInf | NInf, NInf => true
  | _, _ => false
  end.

Definition fabs (x : float) : float :=
  match x with
  | Fin q => Fin (Qabs q)
  | NInf => PInf
  | _ => x
  end.

Definition is_nan (x : float) : bool :=
  match x with NaN => true | _ => false end.

(** [a - v] and [np.abs(a)] on a one-dimensional array. *)
Definition np_subtract (a : list float) (v : float) : list float :=
  map (fun x => fsub x v) a.

Definition np_abs (a : list float) : list float := map fabs a.

(** [np.argmin(a)]: the index of the first least element; a NaN counts as
    least, and the search stops at the first one.  [None] is the ValueError
    numpy raises on an empty array. *)
Fixpoint argmin_from (mp : float) (min_ind i : nat) (ip : list float) : nat :=
  match ip with
  | [] => min_ind
  | x :: rest =>
      if negb (fge x mp) then
        if is_nan x then i else argmin_from x i (S i) rest
      else argmin_from mp min_ind (S i) rest
  end.

Definition argmin (a : list float) : option nat :=
  match a with
  | [] => None
  | x :: rest => if is_nan x then Some 0%nat else Some (argmin_from x 0 1 rest)
  end.

(** A column of the table by its name; [None] is the KeyError of a name
    that is not a column. *)
Definition column (name : string) (df : list row) : option (list float) :=
  if String.eqb name "Net Collections" then Some (map Net_Collections df)
  else if String.eqb name "Formula 1" then Some (map Formula_1 df)
  else if String.eqb name "Formula 2" then Some (map Formula_2 df)
  else if String.eqb name "Formula 3" then Some (map Formula_3 df)
  else None.

(** [df.loc[mask]]: the rows whose entry of the mask is true. *)
Definition loc (df : list row) (mask : list bool) : list row :=
  map fst (filter snd (combine df mask)).

(** The trace [go.Scatter(x=..., y=..., mode="markers",
    marker=dict(size=10), name=..., showlegend=False)]. *)
Record scatter : Type := {
  x : list float;
  y : list float;
  mode : string;
  marker_size : Z;
  name : string;
  showlegend : bool
}.

(** [collection_range[np.argmin(np.abs(collection_range - net_collections))]]:
    the sample nearest to the current collections; [None] when [argmin]
    raises. *)
Definition nearest_sample (collection_range : list float) (net_collections : float)
    : option float :=
  match argmin (np_abs (np_subtract collection_range net_collections)) with
  | None => None
  | Some i => nth_error collection_range i
  end.

(** [comparison_df.loc[comparison_df["Net Collections"] == sample]] for that
    sample (app.py, line 337); [None] when an operation raises. *)
Definition current_point (comparison_df : list row) (collection_range : list float)
    (net_collections : float) : option (list row) :=
  match nearest_sample collection_range net_collections with
  | None => None
  | Some sample =>
      match column "Net Collections" comparison_df with
      | None => None
      | Some nc => Some (loc comparison_df (map (fun v => feq v sample) nc))
      end
  end.

(** The loop of app.py, lines 336-348, from the traces of the figure so far. *)
Fixpoint add_current_points (formulas : list string) (comparison_df : list row)
    (collection_range : list float) (net_collections : float) (fig : list scatter)
    : option (list scatter) :=
  match formulas with
  | [] => Some fig
  | formula :: rest =>
      match current_point comparison_df collection_range net_collections with
      | None => None
      | Some point =>
          match column "Net Collections" point, column formula point with
          | Some xs, Some ys =>
              add_current_points rest comparison_df collection_range net_collections
                (fig ++
                   [ {| x := xs; y := ys; mode := "markers"; marker_size := 10;
                        name := String.append "Current: " formula; showlegend := false |} ])
          | _, _ => None
          end
      end
  end.

Definition formula_names : list string :=
  ["Formula 1"%string; "Formula 2"%string; "Formula 3"%string].

(** *** The order of floats that are not NaN *)

Lemma fle_refl (x : float) : is_nan x = false -> fle x x = true.
Proof.
  destruct x as [q | | |]; cbn; try discriminate; try reflexivity.
  intros _. apply Qle_bool_iff, Qle_refl.
Qed.

Lemma fle_trans (x y z : float) : fle x y = true -> fle y z = true -> fle x z = true.
Proof.
  destruct x as [a | | |], y as [b | | |], z as [c | | |]; cbn; try discriminate; try reflexivity.
  rewrite !Qle_bool_iff. intros. lra.
Qed.

Lemma not_fge_fle (x mp : float) :
  is_nan x = false -> is_nan mp = false -> negb (fge x mp) = true -> fle x mp = true.
Proof.
  unfold fge.
  destruct x as [a | | |], mp as [b | | |]; cbn; try discriminate; try reflexivity.
  intros _ _ H. apply negb_true_iff in H.
  apply Qle_bool_false in H. apply Qle_bool_iff. lra.
Qed.

Lemma fge_fle (x mp : float) : negb (fge x mp) = false -> fle mp x = true.
Proof. unfold fge. intros H. apply negb_false_iff in H. exact H. Qed.

(** *** [np.argmin] *)

Lemma argmin_from_spec (ip : list float) :
  forall mp min_ind i,
    is_nan mp = false -> forallb (fun v => negb (is_nan v)) ip = true ->
    let k := argmin_from mp min_ind i ip in
    (k = min_ind /\ forall v, In v ip -> fle mp v = true)
    \/ (exists v, (i <= k)%nat /\ nth_error ip (k - i) = Some v
                  /\ fle v mp = true /\ forall w, In w ip -> fle v w = true).
Proof.
  induction ip as [| x rest IH]; intros mp min_ind i Nmp Nip.
  - left. split; [reflexivity | intros v []].
  - cbn [forallb] in Nip. apply andb_prop in Nip. destruct Nip as [Nx Nrest].
    apply negb_true_iff in Nx. cbn [argmin_from]. rewrite Nx.
    destruct (negb (fge x mp)) eqn:G.
    + pose proof (not_fge_fle x mp Nx Nmp G) as Lx.
      destruct (IH x i (S i) Nx Nrest) as [[E A] | [v [Lk [Nv [Lv A]]]]].
      * right. exists x. cbn zeta in *. rewrite E.
        replace (i - i)%nat with 0%nat by lia.
        split; [lia |]. split; [reflexivity |]. split; [exact Lx |].
        intros w [<- | W]; [apply fle_refl, Nx | apply A, W].
      * right. exists v. cbn zeta in *.
        set (k := argmin_from x i (S i) rest) in *.
        split; [lia |]. split.
        { replace (k - i)%nat with (S (k - S i)) by lia. exact Nv. }
        split; [apply fle_trans with x; assumption |].
        intros w [<- | W]; [exact Lv | apply A, W].
    + pose proof (fge_fle x mp G) as Lx.
      destruct (IH mp min_ind (S i) Nmp Nrest) as [[E A] | [v [Lk [Nv [Lv A]]]]].
      * left. cbn zeta in *. split; [exact E |].
        intros w [<- | W]; [exact Lx | apply A, W].
      * right. exists v. cbn zeta in *.
        set (k := argmin_from mp min_ind (S i) rest) in *.
        split; [lia |]. split.
        { replace (k - i)%nat with (S (k - S i)) by lia. exact Nv. }
        split; [exact Lv |].
        intros w [<- | W]; [apply fle_trans with mp; assumption | apply A, W].
Qed.

(** On an empty array [argmin] raises; on an array without NaN it returns
    the index of a least element. *)
Lemma argmin_is_least (a : list float) :
  (a = [] -> argmin a = None)
  /\ (a <> [] -> forallb (fun v => negb (is_nan v)) a = true ->
      exists k v,
        argmin a = Some k /\ nth_error a k = Some v
        /\ forall w, In w a -> fle v w = true).
Proof.
  split; [intros ->; reflexivity |].
  intros N H. destruct a as [| x0 rest]; [contradiction |].
  cbn [forallb] in H. apply andb_prop in H. destruct H as [N0 Nrest].
  apply negb_true_iff in N0. cbn [argmin]. rewrite N0.
  destruct (argmin_from_spec rest x0 0%nat 1%nat N0 Nrest) as [[E A] | [v [Lk [Nv [Lv A]]]]];
    cbn zeta in *.
  - exists 0%nat, x0. rewrite E. split; [reflexivity |]. split; [reflexivity |].
    intros w [<- | W]; [apply fle_refl, N0 | apply A, W].
  - set (k := argmin_from x0 0 1 rest) in *. exists k, v.
    split; [reflexivity |]. split.
    + replace k with (S (k - 1)) by lia. exact Nv.
    + intros w [<- | W]; [exact Lv | apply A, W].
Qed.

(** *** The marker of the current collections *)

Lemma round64_not_nan (q : Q) : is_nan (round64 q) = false.
Proof.
  unfold round64. destruct (Qle_bool _ _); [reflexivity |].
  destruct (Qle_bool _ _); reflexivity.
Qed.

Lemma distance_not_nan (c net : float) :
  finite c = true -> is_nan net = false -> is_nan (fabs (fsub c net)) = false.
Proof.
  intros Fc Nn. apply finite_inv in Fc. destruct Fc as [q [-> _]].
  destruct net as [n | | |]; try discriminate; try reflexivity.
  cbn [fsub fneg fadd]. pose proof (round64_not_nan (q + - n)) as R.
  destruct (round64 (q + - n)); try discriminate; reflexivity.
Qed.

Lemma distances_not_nan (cs : list float) (net : float) :
  forallb finite cs = true -> is_nan net = false ->
  forallb (fun v => negb (is_nan v)) (np_abs (np_subtract cs net)) = true.
Proof.
  intros F N. induction cs as [| c cs IH]; [reflexivity |].
  cbn [forallb] in F. apply andb_prop in F. destruct F as [Fc Fcs].
  cbn [np_abs np_subtract map forallb].
  rewrite (distance_not_nan c net Fc N). cbn [negb andb]. apply IH, Fcs.
Qed.

Lemma flt_not_feq (a b : float) :
  flt a b = true -> feq a b = false /\ feq b a = false.
Proof.
  destruct a as [p | | |], b as [q | | |]; cbn; try discriminate; auto.
  rewrite Qlt_bool_iff. intros L.
  split; apply not_true_is_false; intros E; apply Qeq_bool_iff in E; lra.
Qed.

Lemma feq_refl (c : float) : finite c = true -> feq c c = true.
Proof.
  intros F. apply finite_inv in F. destruct F as [q [-> _]].
  cbn. apply Qeq_bool_iff. reflexivity.
Qed.

Lemma filter_none {A : Type} (h : A -> bool) (l : list A) :
  (forall y, In y l -> h y = false) -> filter h l = [].
Proof.
  induction l as [| a l IH]; intros H; [reflexivity |].
  cbn [filter]. rewrite (H a (or_introl eq_refl)). apply IH.
  intros y Hy. apply H. right. exact Hy.
Qed.

(** In an increasing range of finite samples, a sample equals itself only. *)
Lemma filter_sample (cs : list float) :
  forall k s,
    increasing cs = true -> forallb finite cs = true ->
    nth_error cs k = Some s -> filter (fun c => feq c s) cs = [s].
Proof.
  induction cs as [| c cs IH]; intros k s Inc F N.
  - destruct k; discriminate.
  - cbn [forallb] in F. apply andb_prop in F. destruct F as [Fc Fcs].
    cbn [filter]. destruct k as [| k].
    + injection N as <-. rewrite (feq_refl c Fc). f_equal.
      apply filter_none.
      intros y Hy. apply In_nth_error in Hy. destruct Hy as [j Hj].
      apply (flt_not_feq c y). apply (increasing_head c cs j y Inc Hj).
    + cbn [nth_error] in N.
      destruct (flt_not_feq c s (increasing_head c cs k s Inc N)) as [E _].
      rewrite E. apply (IH k s (increasing_tail c cs Inc) Fcs N).
Qed.

Lemma loc_map (f1 f2 f3 : formula_params) (h : float -> bool) (cs : list float) :
  loc (map (row_at f1 f2 f3) cs) (map h cs) = map (row_at f1 f2 f3) (filter h cs).
Proof.
  unfold loc. induction cs as [| c cs IH]; [reflexivity |].
  cbn [map combine filter snd]. destruct (h c); cbn [map fst]; rewrite IH; reflexivity.
Qed.

Lemma current_point_eq (f1 f2 f3 : formula_params) (cs : list float) (net : float)
    (k : nat) (s : float) :
  increasing cs = true -> forallb finite cs = true ->
  argmin (np_abs (np_subtract cs net)) = Some k -> nth_error cs k = Some s ->
  current_point (map (row_at f1 f2 f3) cs) cs net = Some [row_at f1 f2 f3 s].
Proof.
  intros Inc F A N. unfold current_point, nearest_sample. rewrite A, N.
  change (column "Net Collections" (map (row_at f1 f2 f3) cs))
    with (Some (map Net_Collections (map (row_at f1 f2 f3) cs))).
  rewrite sweep_samples, loc_map, (filter_sample cs k s Inc F N). reflexivity.
Qed.

(** The marker trace of one formula. *)
Definition marker_trace (sample value : float) (formula : string) : scatter :=
  {| x := [sample]; y := [value]; mode := "markers"; marker_size := 10;
     name := String.append "Current: " formula; showlegend := false |}.

(** X12: over an increasing range of finite samples and for collections
    that are not a NaN, the loop of lines 336-348 adds three traces, one per
    formula and in this order; each is one point, at the sample nearest to
    the current collections (not at the collections themselves) and at the
    total the table holds for its formula in the row of that sample. *)
Theorem marker_on_curve
    (f1 f2 f3 : formula_params) (cs : list float) (net : float) :
  cs <> [] -> forallb finite cs = true -> increasing cs = true ->
  is_nan net = false ->
  exists rows i s r,
    sweep f1 f2 f3 cs = Returns rows
    /\ nth_error cs i = Some s
    /\ nth_error rows i = Some r
    /\ (forall s', In s' cs -> fle (fabs (fsub s net)) (fabs (fsub s' net)) = true)
    /\ add_current_points formula_names rows cs net []
       = Some [ marker_trace s (Formula_1 r) "Formula 1";
                marker_trace s (Formula_2 r) "Formula 2";
                marker_trace s (Formula_3 r) "Formula 3" ].
Proof.
  intros Ne F Inc Nn.
  destruct (argmin_is_least (np_abs (np_subtract cs net))) as [_ A].
  destruct A as [k [v [Ak [Nv Least]]]].
  { destruct cs; [contradiction | discriminate]. }
  { apply distances_not_nan; assumption. }
  unfold np_abs, np_subtract in Nv. rewrite map_map, nth_error_map in Nv.
  destruct (nth_error cs k) as [s |] eqn:Ns; [| discriminate].
  cbn in Nv. injection Nv as <-.
  exists (map (row_at f1 f2 f3) cs), k, s, (row_at f1 f2 f3 s).
  split; [apply sweep_eq |]. split; [exact Ns |].
  split; [rewrite nth_error_map, Ns; reflexivity |].
  split.
  - intros s' Hs. apply Least. unfold np_abs, np_subtract. rewrite map_map.
    apply (in_map (fun c => fabs (fsub c net))), Hs.
  - cbn [add_current_points formula_names].
    rewrite (current_point_eq f1 f2 f3 cs net k s Inc F Ak Ns). reflexivity.
Qed.

(** The values of the slider of app.py, lines 96-103: from 100000 to
    3000000 by steps of 50000. *)
Definition slider_value (k : nat) : float := int (100000 + 50000 * Z.of_nat k).

Definition slider_values : list float := map slider_value (seq 0 59).

Definition marker_check (v : float) : bool :=
  match nearest_sample App.collection_range v with
  | Some s =>
      fle (fabs (fsub s v)) (Fin 14647)
      && Bool.eqb (feq s v) (feq v (int 100000) || feq v (int 3000000))
  | None => false
  end.

Lemma marker_checks : forallb marker_check slider_values = true.
Proof. vm_compute. reflexivity. Qed.

Lemma marker_check_inv (v : float) :
  marker_check v = true ->
  exists s,
    nearest_sample App.collection_range v = Some s
    /\ fle (fabs (fsub s v)) (Fin 14647) = true
    /\ feq s v = (feq v (int 100000) || feq v (int 3000000)).
Proof.
  unfold marker_check.
  destruct (nearest_sample App.collection_range v) as [s |]; [| discriminate].
  intros C. apply andb_prop in C. destruct C as [C1 C2]. apply Bool.eqb_prop in C2.
  exists s. auto.
Qed.

Lemma slider_value_eq (k : nat) :
  (k <= 58)%nat -> slider_value k = Fin (inject_Z (100000 + 50000 * Z.of_nat k)).
Proof.
  intros H. unfold slider_value, int, of_Z. apply round64_fix, is_f64_int.
  assert ((2 ^ 53 = 9007199254740992)%Z) by reflexivity. lia.
Qed.

Lemma slider_value_in (k : nat) : (k <= 58)%nat -> In (slider_value k) slider_values.
Proof. intros H. unfold slider_values. apply in_map, in_seq. lia. Qed.

(** The slider is at an end of the range at its first and its last value
    only. *)
Lemma slider_ends (k : nat) :
  (k <= 58)%nat ->
  (feq (slider_value k) (int 100000) || feq (slider_value k) (int 3000000) = true
   <-> k = 0%nat \/ k = 58%nat).
Proof.
  intros H. rewrite (slider_value_eq k H), orb_true_iff.
  change (int 100000) with (of_Z 100000). change (int 3000000) with (of_Z 3000000).
  assert (A : of_Z 100000 = Fin (inject_Z 100000)) by (vm_compute; reflexivity).
  assert (B : of_Z 3000000 = Fin (inject_Z 3000000)) by (vm_compute; reflexivity).
  rewrite A, B. cbn [feq]. rewrite !Qeq_bool_iff, !inject_Z_injective. lia.
Qed.

(** X13: for every value of the slider the marker sits on a sample of the
    chart within 14,647 of the collections chosen, and exactly on them only
    at the two ends of the slider, 100,000 and 3,000,000. *)
Theorem marker_offset (k : nat) :
  (k <= 58)%nat ->
  exists s,
    nearest_sample App.collection_range (slider_value k) = Some s
    /\ fle (fabs (fsub s (slider_value k))) (Fin 14647) = true
    /\ (feq s (slider_value k) = true <-> k = 0%nat \/ k = 58%nat).
Proof.
  intros H. pose proof marker_checks as C. rewrite forallb_forall in C.
  destruct (marker_check_inv _ (C _ (slider_value_in k H))) as [s [N [D E]]].
  exists s. split; [exact N |]. split; [exact D |].
  rewrite E. apply slider_ends, H.
Qed.

(** *** The properties at concrete inputs *)

Lemma marker_on_curve_witness :
  exists rows i s r,
    sweep params_a params_b params_c [int 100000; int 200000; int 300000]
    = Returns rows
    /\ nth_error [int 100000; int 200000; int 300000] i = Some s
    /\ nth_error rows i = Some r
    /\ (forall s', In s' [int 100000; int 200000; int 300000] ->
          fle (fabs (fsub s (int 180000))) (fabs (fsub s' (int 180000))) = true)
    /\ add_current_points formula_names rows
         [int 100000; int 200000; int 300000] (int 180000) []
       = Some [ marker_trace s (Formula_1 r) "Formula 1";
                marker_trace s (Formula_2 r) "Formula 2";
                marker_trace s (Formula_3 r) "Formula 3" ].
Proof.
  apply (marker_on_curve params_a params_b params_c
           [int 100000; int 200000; int 300000] (int 180000));
    [discriminate | vm_compute; reflexivity | vm_compute; reflexivity
    | vm_compute; reflexivity].
Defined.

Lemma marker_offset_witness :
  exists s,
    nearest_sample App.collection_range (slider_value 18) = Some s
    /\ fle (fabs (fsub s (slider_value 18))) (Fin 14647) = true
    /\ (feq s (slider_value 18) = true <-> 18%nat = 0%nat \/ 18%nat = 58%nat).
Proof. apply (marker_offset 18). lia. Defined.

End Marker.

(** ** The inputs of the sidebar (app.py, lines 96-190) *)

Module Sidebar.
Import Binary64 Python App Properties Engine Chart Integers Marker.

(** What the widgets of the sidebar hand to the program (app.py, lines
    96-190).  [number_input] with int bounds returns an int between them;
    with float bounds, a float between them; the slider returns an int from
    its least value by whole steps. *)
Definition int_between (lo hi : Z) (v : float) : bool :=
  match v with
  | Fin q => Pos.eqb (Qden q) 1 && Z.leb lo (Qnum q) && Z.leb (Qnum q) hi
  | _ => false
  end.

Definition float_between (lo hi : Q) (v : float) : bool :=
  finite v && fle (Fin lo) v && fle v (Fin hi).

Definition sidebar_params (p : formula_params) : bool :=
  int_between 0 1000000 (base_salary p)
  && float_between 1 5 (multiplier p)
  && float_between 0 100 (bonus_percentage p).

Lemma int_between_inv (lo hi : Z) (v : float) :
  int_between lo hi v = true ->
  exists z, v = Fin (inject_Z z) /\ (lo <= z <= hi)%Z.
Proof.
  destruct v as [[n d] | | |]; unfold int_between; cbn [Qden Qnum]; try discriminate.
  rewrite !andb_true_iff, Pos.eqb_eq, !Z.leb_le. intros [[-> L] U].
  exists n. split; [reflexivity | lia].
Qed.

Lemma float_between_inv (lo hi : Q) (v : float) :
  float_between lo hi v = true ->
  exists q, v = Fin q /\ is_f64 q = true /\ lo <= q <= hi.
Proof.
  unfold float_between. rewrite !andb_true_iff. intros [[F L] U].
  apply finite_inv in F. destruct F as [q [-> Hq]].
  cbn in L, U. apply Qle_bool_iff in L, U. exists q. auto.
Qed.

Lemma is_f64_4000000 : is_f64 4000000 = true.
Proof. vm_compute. reflexivity. Qed.

Lemma is_f64_5000000 : is_f64 5000000 = true.
Proof. vm_compute. reflexivity. Qed.

(** X14: what the sidebar can hand over is in the domain of the engine: for
    a base salary that is an int from 0 to 1,000,000, a multiplier from 1.0
    to 5.0, a percentage from 0.0 to 100.0 and any value of the slider, the
    function returns, the threshold is a finite number of at most 5,000,000
    and the total a finite number of at most 4,000,000. *)
Theorem sidebar_inputs_in_domain
    (s : slot) (f1 f2 f3 : formula_params) (k : nat) :
  sidebar_params (params_of s f1 f2 f3) = true ->
  (k <= 58)%nat ->
  valid_params (params_of s f1 f2 f3) = true
  /\ valid_collections (slider_value k) = true
  /\ exists r,
       formula_at s f1 f2 f3 (slider_value k) = Returns r
       /\ finite (Bonus_Threshold (details_ r)) = true
       /\ fle (Bonus_Threshold (details_ r)) (Fin 5000000) = true
       /\ finite (total r) = true
       /\ fle (total r) (Fin 4000000) = true.
Proof.
  intros S K.
  unfold sidebar_params in S. rewrite !andb_true_iff in S. destruct S as [[Sb Sm] Sp].
  destruct (params_of s f1 f2 f3) as [b m pct] eqn:P.
  cbn [base_salary multiplier bonus_percentage] in *.
  apply int_between_inv in Sb. destruct Sb as [z [-> Bz]].
  apply float_between_inv in Sm. destruct Sm as [qm [-> [Hm Bm]]].
  apply float_between_inv in Sp. destruct Sp as [qp [-> [Hp Bp]]].
  assert (T53 : (2 ^ 53 = 9007199254740992)%Z) by reflexivity.
  assert (Hb : is_f64 (inject_Z z) = true) by (apply is_f64_int; lia).
  assert (Pb : 0 <= inject_Z z <= 1000000).
  { split; unfold Qle, inject_Z; cbn [Qnum Qden]; lia. }
  set (c := (100000 + 50000 * Z.of_nat k)%Z).
  assert (Hc : is_f64 (inject_Z c) = true) by (apply is_f64_int; unfold c; lia).
  assert (Vc : slider_value k = Fin (inject_Z c)).
  { unfold slider_value, int, of_Z. apply round64_fix, Hc. }
  assert (Pc : 0 <= inject_Z c <= 3000000).
  { split; unfold Qle, inject_Z; cbn [Qnum Qden]; unfold c; lia. }
  assert (Vp : valid_params
                 {| base_salary := Fin (inject_Z z); multiplier := Fin qm;
                    bonus_percentage := Fin qp |} = true).
  { unfold valid_params. cbn [base_salary multiplier bonus_percentage].
    rewrite int_0, int_1, int_100. cbn [finite fle]. rewrite Hb, Hm, Hp.
    rewrite !andb_true_iff, !Qle_bool_iff. repeat split; lra. }
  split; [exact Vp |]. rewrite Vc.
  split.
  { unfold valid_collections. rewrite int_0. cbn [finite fle]. rewrite Hc.
    apply Qle_bool_iff. lra. }
  exists (entry (params_of s f1 f2 f3) (Fin (inject_Z c))).
  split; [apply formula_at_eq |]. rewrite P.
  destruct (entry_fields (Fin (inject_Z z)) (Fin qm) (Fin qp) (Fin (inject_Z c)))
    as [_ [-> [-> _]]].
  destruct (round64_between (inject_Z z * qm) 0 5000000 is_f64_0 is_f64_5000000)
    as [t [Et [Ft Bt]]]; [nra |].
  change (mul (Fin (inject_Z z)) (Fin qm)) with (round64 (inject_Z z * qm)).
  rewrite Et. cbn [finite fle].
  split; [exact Ft |]. split; [apply Qle_bool_iff; lra |].
  assert (E : exists e, excess_of (Fin (inject_Z c)) (Fin t) = Fin e
                        /\ is_f64 e = true /\ 0 <= e <= inject_Z c).
  { assert (T : fle (Fin 0) (Fin t) = true) by (apply Qle_bool_iff; lra).
    destruct (excess_cases (inject_Z c) (Fin t) Hc T) as [Z | [tq [e [_ [X [_ [Fe Be]]]]]]].
    - exists 0. split; [exact Z | split; [exact is_f64_0 | lra]].
    - exists e. split; [exact X | split; [exact Fe | lra]]. }
  destruct E as [e [-> [Fe Be]]].
  destruct (rate_valid qp Bp) as [kr [-> [_ Bk]]].
  destruct (bonus_bounds e kr Fe (proj1 Be) Bk) as [bo [-> [_ Bbo]]].
  unfold add. cbn [fadd].
  destruct (round64_between (inject_Z z + bo) 0 4000000 is_f64_0 is_f64_4000000)
    as [v [-> [Fv Bv]]]; [lra |].
  cbn [finite fle]. split; [exact Fv | apply Qle_bool_iff; lra].
Qed.

(** *** The properties at concrete inputs *)

Lemma sidebar_inputs_in_domain_witness :
  valid_params params_b = true
  /\ valid_collections (slider_value 18) = true
  /\ exists r,
       formula_at Slot2 params_a params_b params_c (slider_value 18) = Returns r
       /\ finite (Bonus_Threshold (details_ r)) = true
       /\ fle (Bonus_Threshold (details_ r)) (Fin 5000000) = true
       /\ finite (total r) = true
       /\ fle (total r) (Fin 4000000) = true.
Proof.
  apply (sidebar_inputs_in_domain Slot2 params_a params_b params_c 18);
    [vm_compute; reflexivity | lia].
Defined.

End Sidebar.

(** ** The texts of the page (app.py, lines 63-64 and 223-245) *)

Module Display.
Import Binary64 Python App Properties.

(** *** Formatting a float with a fixed number of decimals *)

Definition digit_char (d : N) : ascii := ascii_of_N (48 + d).

(** The decimal digits of [n], the least significant first; [fuel] bounds
    their number. *)
Fixpoint digits_le (fuel : nat) (n : N) : list ascii :=
  match fuel with
  | O => []
  | S fuel' =>
      digit_char (n mod 10)
      :: (if (n / 10 =? 0)%N then [] else digits_le fuel' (n / 10)%N)
  end.

(** The decimal digits of [n], the most significant first. *)
Definition decimal (n : N) : list ascii :=
  rev (digits_le (S (N.to_nat (N.size n))) n).

(** The last [p] decimal digits of [r], the least significant first. *)
Fixpoint digits_fixed (p : nat) (r : N) : list ascii :=
  match p with
  | O => []
  | S p' => digit_char (r mod 10) :: digits_fixed p' (r / 10)%N
  end.

(** The digits in groups of three from the right, with commas between. *)
Fixpoint group3_rev (l : list ascii) : list ascii :=
  match l with
  | a :: b :: c :: ((_ :: _) as rest) => a :: b :: c :: ","%char :: group3_rev rest
  | _ => l
  end.

Definition group3 (l : list ascii) : list ascii := rev (group3_rev (rev l)).

(** The number of units of [10^-p] nearest to [q], ties to even. *)
Definition units (p : nat) (q : Q) : Z := rhe (q * inject_Z (10 ^ Z.of_nat p)).

(** [format(x, ',.pf')] when [grouping], [format(x, '.pf')] otherwise: the
    exact value of the float rounded to [p] decimals, ties to even, with the
    sign of the float, also when the digits are all zero.  (The zero of
    [Binary64] stands for both zeros of the format; Python writes the
    negative one with a minus sign, and both read as 0.) *)
Definition format_f (p : nat) (grouping : bool) (x : float) : string :=
  match x with
  | NaN => "nan"
  | PInf => "inf"
  | NInf => "-inf"
  | Fin q =>
      let scale := (10 ^ N.of_nat p)%N in
      let n := Z.to_N (Z.abs (units p q)) in
      let ip := decimal (n / scale) in
      let fp := rev (digits_fixed p (n mod scale)) in
      string_of_list_ascii
        ((if Qlt_bool q 0 then ["-"%char] else [])
           ++ (if grouping then group3 ip else ip)
           ++ (match p with O => [] | _ => "."%char :: fp end))
  end.

(** *** Reading a decimal numeral *)

Definition digit_val (c : ascii) : option N :=
  let n := N_of_ascii c in
  if ((48 <=? n) && (n <=? 57))%N then Some (n - 48)%N else None.

(** The number a list of digits denotes, the least significant first. *)
Fixpoint value_le (l : list ascii) : option N :=
  match l with
  | [] => Some 0%N
  | c :: rest =>
      match digit_val c, value_le rest with
      | Some d, Some v => Some (d + 10 * v)%N
      | _, _ => None
      end
  end.

Definition read_digits (l : list ascii) : option N :=
  match l with
  | [] => None
  | _ => value_le (rev l)
  end.

(** The text up to the first point, and the text after it. *)
Fixpoint split_point (l : list ascii) : list ascii * option (list ascii) :=
  match l with
  | [] => ([], None)
  | c :: rest =>
      if Ascii.eqb c "." then ([], Some rest)
      else let (a, b) := split_point rest in (c :: a, b)
  end.

Definition not_comma (c : ascii) : bool := negb (Ascii.eqb c ",").

(** The number an unsigned numeral with [p] decimals denotes: digits with or
    without commas, and, when [p] is not zero, a point and [p] digits. *)
Definition read_unsigned (p : nat) (body : list ascii) : option Q :=
  let '(ip, fp) := split_point body in
  match read_digits (filter not_comma ip) with
  | None => None
  | Some i =>
      match p, fp with
      | O, None => Some (inject_Z (Z.of_N i))
      | S _, Some f =>
          if Nat.eqb (List.length f) p then
            match read_digits f with
            | Some fr =>
                Some (inject_Z (Z.of_N i)
                      + inject_Z (Z.of_N fr) / inject_Z (10 ^ Z.of_nat p))
            | None => None
            end
          else None
      | _, _ => None
      end
  end.

(** The number a numeral denotes: an unsigned numeral, or a minus sign and
    one. *)
Definition read_f (p : nat) (s : string) : option Q :=
  match list_ascii_of_string s with
  | [] => None
  | c :: rest =>
      if Ascii.eqb c "-" then option_map Qopp (read_unsigned p rest)
      else read_unsigned p (c :: rest)
  end.

(** *** Digits *)

Definition is_digit (c : ascii) : bool :=
  match digit_val c with Some _ => true | None => false end.

Lemma digit_val_char (d : N) : (d < 10)%N -> digit_val (digit_char d) = Some d.
Proof.
  intros H. unfold digit_val, digit_char.
  rewrite N_ascii_embedding by lia.
  replace ((48 <=? 48 + d)%N) with true by (symmetry; apply N.leb_le; lia).
  replace ((48 + d <=? 57)%N) with true by (symmetry; apply N.leb_le; lia).
  cbn [andb]. f_equal. lia.
Qed.

Lemma mod10_lt (n : N) : (n mod 10 < 10)%N.
Proof. apply N.mod_lt. discriminate. Qed.

Lemma is_digit_char (n : N) : is_digit (digit_char (n mod 10)) = true.
Proof. unfold is_digit. rewrite digit_val_char by apply mod10_lt. reflexivity. Qed.

(** A digit is none of the marks of a numeral. *)
Lemma digit_not_mark (c : ascii) :
  is_digit c = true ->
  Ascii.eqb c "." = false /\ Ascii.eqb c "," = false /\ Ascii.eqb c "-" = false.
Proof.
  intros H. repeat split.
  - destruct (Ascii.eqb_spec c ".") as [-> | _]; [discriminate | reflexivity].
  - destruct (Ascii.eqb_spec c ",") as [-> | _]; [discriminate | reflexivity].
  - destruct (Ascii.eqb_spec c "-") as [-> | _]; [discriminate | reflexivity].
Qed.

Lemma digits_le_digits (fuel : nat) :
  forall n, forallb is_digit (digits_le fuel n) = true.
Proof.
  induction fuel as [| f IH]; intros n; [reflexivity |].
  cbn [digits_le forallb]. rewrite is_digit_char. cbn [andb].
  destruct (n / 10 =? 0)%N; [reflexivity | apply IH].
Qed.

Lemma digits_fixed_digits (p : nat) :
  forall r, forallb is_digit (digits_fixed p r) = true.
Proof.
  induction p as [| p IH]; intros r; [reflexivity |].
  cbn [digits_fixed forallb]. rewrite is_digit_char. apply IH.
Qed.

Lemma digits_fixed_length (p : nat) :
  forall r, List.length (digits_fixed p r) = p.
Proof.
  induction p as [| p IH]; intros r; [reflexivity |].
  cbn [digits_fixed List.length]. rewrite IH. reflexivity.
Qed.

(** Reading the digits of a number gives the number back. *)
Lemma value_digits_le (f : nat) :
  forall n, (n < 2 ^ N.of_nat f)%N -> value_le (digits_le (S f) n) = Some n.
Proof.
  induction f as [| f IH]; intros n H.
  - assert (n = 0%N) by (change (2 ^ N.of_nat 0)%N with 1%N in H; lia). subst n.
    reflexivity.
  - cbn [digits_le]. cbn [value_le].
    rewrite digit_val_char by apply mod10_lt.
    assert (D : (n / 10 < 2 ^ N.of_nat f)%N).
    { apply N.Div0.div_lt_upper_bound.
      rewrite Nat2N.inj_succ, N.pow_succ_r' in H. lia. }
    destruct (N.eqb_spec (n / 10) 0) as [E | NE].
    + cbn [value_le]. f_equal. pose proof (N.div_mod n 10). lia.
    + change (digits_le (S f) (n / 10)) with
        (digit_char ((n / 10) mod 10)
           :: (if (n / 10 / 10 =? 0)%N then [] else digits_le f (n / 10 / 10)%N)).
      change (value_le
                (digit_char ((n / 10) mod 10)
                   :: (if (n / 10 / 10 =? 0)%N then [] else digits_le f (n / 10 / 10)%N)))
        with (value_le (digits_le (S f) (n / 10))).
      rewrite (IH _ D). f_equal. pose proof (N.div_mod n 10). lia.
Qed.

Lemma value_digits_fixed (p : nat) :
  forall r, value_le (digits_fixed p r) = Some (r mod 10 ^ N.of_nat p)%N.
Proof.
  induction p as [| p IH]; intros r.
  - cbn. rewrite N.mod_1_r. reflexivity.
  - cbn [digits_fixed value_le]. rewrite digit_val_char by apply mod10_lt.
    rewrite IH. f_equal.
    rewrite Nat2N.inj_succ, N.pow_succ_r'.
    rewrite (N.Div0.mod_mul_r r 10 (10 ^ N.of_nat p)). reflexivity.
Qed.

Lemma decimal_eq (n : N) :
  exists c rest, digits_le (S (N.to_nat (N.size n))) n = c :: rest.
Proof. cbn [digits_le]. eauto. Qed.

Lemma read_digits_rev (l : list ascii) :
  l <> [] -> read_digits (rev l) = value_le l.
Proof.
  intros H. unfold read_digits. rewrite rev_involutive.
  destruct (rev l) eqn:E; [| reflexivity].
  apply (f_equal (@rev ascii)) in E. rewrite rev_involutive in E. contradiction.
Qed.

Lemma read_decimal (n : N) : read_digits (decimal n) = Some n.
Proof.
  unfold decimal. destruct (decimal_eq n) as [c [rest E]].
  rewrite read_digits_rev by (rewrite E; discriminate).
  apply value_digits_le. rewrite N2Nat.id. apply N.size_gt.
Qed.

Lemma decimal_digits (n : N) : forallb is_digit (decimal n) = true.
Proof.
  unfold decimal. apply forallb_forall. intros c H. apply in_rev in H.
  pose proof (digits_le_digits (S (N.to_nat (N.size n))) n) as D.
  rewrite forallb_forall in D. apply D, H.
Qed.

Lemma decimal_nonempty (n : N) : decimal n <> [].
Proof.
  unfold decimal. destruct (decimal_eq n) as [c [rest ->]]. cbn [rev].
  intros E. apply app_eq_nil in E. destruct E as [_ E]. discriminate.
Qed.

(** *** Grouping *)

Definition numeral_char (c : ascii) : bool := is_digit c || Ascii.eqb c ",".

Lemma group3_rev_spec (n : nat) :
  forall m, (List.length m <= n)%nat -> forallb is_digit m = true ->
    filter not_comma (group3_rev m) = m
    /\ forallb numeral_char (group3_rev m) = true
    /\ (m <> [] -> group3_rev m <> []).
Proof.
  induction n as [| n IH]; intros m L D.
  - destruct m; [| cbn in L; lia]. cbn. auto.
  - destruct m as [| a [| b [| c [| d rest]]]];
      try (cbn [group3_rev]; repeat split;
           [ apply forallb_forall; intros x Hx; rewrite forallb_forall in D;
             assert (F : filter not_comma _ = _) by reflexivity
           | |]; fail).
    + cbn. auto.
    + cbn [group3_rev]. cbn [forallb] in D. apply andb_prop in D. destruct D as [Da _].
      destruct (digit_not_mark a Da) as [_ [Ca _]].
      cbn [filter forallb]. unfold not_comma, numeral_char. rewrite Ca, Da. cbn.
      repeat split; discriminate.
    + cbn [group3_rev]. cbn [forallb] in D.
      apply andb_prop in D. destruct D as [Da D].
      apply andb_prop in D. destruct D as [Db _].
      destruct (digit_not_mark a Da) as [_ [Ca _]].
      destruct (digit_not_mark b Db) as [_ [Cb _]].
      cbn [filter forallb]. unfold not_comma, numeral_char. rewrite Ca, Da, Cb, Db. cbn.
      repeat split; discriminate.
    + cbn [group3_rev]. cbn [forallb] in D.
      apply andb_prop in D. destruct D as [Da D].
      apply andb_prop in D. destruct D as [Db D].
      apply andb_prop in D. destruct D as [Dc _].
      destruct (digit_not_mark a Da) as [_ [Ca _]].
      destruct (digit_not_mark b Db) as [_ [Cb _]].
      destruct (digit_not_mark c Dc) as [_ [Cc _]].
      cbn [filter forallb]. unfold not_comma, numeral_char.
      rewrite Ca, Da, Cb, Db, Cc, Dc. cbn.
      repeat split; discriminate.
    + change (group3_rev (a :: b :: c :: d :: rest))
        with (a :: b :: c :: ","%char :: group3_rev (d :: rest)).
      cbn [forallb] in D.
      apply andb_prop in D. destruct D as [Da D].
      apply andb_prop in D. destruct D as [Db D].
      apply andb_prop in D. destruct D as [Dc D].
      destruct (digit_not_mark a Da) as [_ [Ca _]].
      destruct (digit_not_mark b Db) as [_ [Cb _]].
      destruct (digit_not_mark c Dc) as [_ [Cc _]].
      destruct (IH (d :: rest)) as [F [G _]]; [cbn in L |- *; lia | exact D |].
      cbn [filter forallb]. unfold not_comma at 1 2 3 4, numeral_char at 1 2 3 4.
      rewrite Ca, Da, Cb, Db, Cc, Dc. cbn [negb orb andb].
      change (Ascii.eqb "," ",") with true. cbn [negb orb andb].
      rewrite F, G. rewrite orb_true_r. repeat split; discriminate.
Qed.

Lemma group3_spec (l : list ascii) :
  forallb is_digit l = true ->
  filter not_comma (group3 l) = l
  /\ forallb numeral_char (group3 l) = true
  /\ (l <> [] -> group3 l <> []).
Proof.
  intros D.
  assert (Dr : forallb is_digit (rev l) = true).
  { apply forallb_forall. intros c H. apply in_rev in H.
    rewrite forallb_forall in D. apply D, H. }
  destruct (group3_rev_spec (List.length (rev l)) (rev l) (le_n _) Dr) as [F [G N]].
  unfold group3. repeat split.
  - rewrite filter_rev, F. apply rev_involutive.
  - apply forallb_forall. intros c H. apply in_rev in H.
    rewrite forallb_forall in G. apply G, H.
  - intros Hl E. apply N.
    + intros R. apply Hl. apply (f_equal (@rev ascii)) in R.
      rewrite rev_involutive in R. exact R.
    + apply (f_equal (@rev ascii)) in E. rewrite rev_involutive in E. exact E.
Qed.

(** *** Reading back *)

Lemma numeral_char_not_mark (c : ascii) :
  numeral_char c = true -> Ascii.eqb c "." = false /\ Ascii.eqb c "-" = false.
Proof.
  unfold numeral_char. intros H. apply orb_prop in H. destruct H as [H | H].
  - destruct (digit_not_mark c H) as [A [_ B]]. split; assumption.
  - apply Ascii.eqb_eq in H. subst c. split; reflexivity.
Qed.

Lemma digits_numeral (l : list ascii) :
  forallb is_digit l = true ->
  forallb numeral_char l = true /\ filter not_comma l = l.
Proof.
  induction l as [| c l IH]; intros D; [split; reflexivity |].
  cbn [forallb] in D. apply andb_prop in D. destruct D as [Dc D].
  destruct (IH D) as [A B]. destruct (digit_not_mark c Dc) as [_ [C _]].
  cbn [forallb filter]. unfold numeral_char at 1, not_comma at 1.
  rewrite Dc, C, A, B. split; reflexivity.
Qed.

Lemma split_point_app (a f : list ascii) :
  forallb numeral_char a = true ->
  split_point (a ++ "."%char :: f) = (a, Some f).
Proof.
  induction a as [| c a IH]; intros H; [reflexivity |].
  cbn [forallb] in H. apply andb_prop in H. destruct H as [Hc H].
  destruct (numeral_char_not_mark c Hc) as [P _].
  cbn [app split_point]. rewrite P, (IH H). reflexivity.
Qed.

Lemma split_point_none (a : list ascii) :
  forallb numeral_char a = true -> split_point a = (a, None).
Proof.
  induction a as [| c a IH]; intros H; [reflexivity |].
  cbn [forallb] in H. apply andb_prop in H. destruct H as [Hc H].
  destruct (numeral_char_not_mark c Hc) as [P _].
  cbn [split_point]. rewrite P, (IH H). reflexivity.
Qed.

Lemma scale_Z (p : nat) : Z.of_N (10 ^ N.of_nat p) = (10 ^ Z.of_nat p)%Z.
Proof. rewrite N2Z.inj_pow, nat_N_Z. reflexivity. Qed.

Lemma scale_pos (p : nat) : 0 < inject_Z (10 ^ Z.of_nat p).
Proof.
  change 0 with (inject_Z 0). rewrite <- Zlt_Qlt.
  apply Z.pow_pos_nonneg; lia.
Qed.

(** The text of [n] units of [10^-p] reads back as [n / 10^p]. *)
Lemma read_unsigned_format (p : nat) (n : N) (B : list ascii) :
  forallb numeral_char B = true ->
  filter not_comma B = decimal (n / 10 ^ N.of_nat p) ->
  exists v,
    read_unsigned p
      (B ++ match p with
            | O => []
            | _ => "."%char :: rev (digits_fixed p (n mod 10 ^ N.of_nat p))
            end) = Some v
    /\ v == inject_Z (Z.of_N n) / inject_Z (10 ^ Z.of_nat p).
Proof.
  intros HB HF. destruct p as [| p'].
  - rewrite app_nil_r. unfold read_unsigned. rewrite (split_point_none B HB), HF.
    rewrite read_decimal. eexists. split; [reflexivity |].
    change (10 ^ N.of_nat 0)%N with 1%N. rewrite N.div_1_r.
    change (10 ^ Z.of_nat 0)%Z with 1%Z. unfold Qdiv.
    change (/ inject_Z 1) with 1. ring.
  - set (p := S p') in *. set (s := (10 ^ N.of_nat p)%N) in *.
    unfold read_unsigned. rewrite (split_point_app B _ HB), HF, read_decimal.
    rewrite length_rev, digits_fixed_length, Nat.eqb_refl.
    rewrite read_digits_rev by (unfold p; cbn [digits_fixed]; discriminate).
    rewrite value_digits_fixed. fold s. rewrite N.Div0.mod_mod.
    eexists. split; [reflexivity |].
    pose proof (scale_pos p) as SP. rewrite <- (scale_Z p) in SP |- *. fold s in SP |- *.
    assert (E : inject_Z (Z.of_N n)
                == inject_Z (Z.of_N s) * inject_Z (Z.of_N (n / s))
                   + inject_Z (Z.of_N (n mod s))).
    { rewrite <- inject_Z_mult, <- inject_Z_plus.
      rewrite <- N2Z.inj_mul, <- N2Z.inj_add, <- N.div_mod'. reflexivity. }
    rewrite E. field. intros Z0. rewrite Z0 in SP. apply (Qlt_irrefl 0), SP.
Qed.

(** The sign of the number of units is the sign of the value. *)
Lemma units_sign (p : nat) (q : Q) :
  (if Qlt_bool q 0 then (units p q <= 0)%Z else (0 <= units p q)%Z).
Proof.
  pose proof (scale_pos p) as SP. unfold units.
  destruct (Qlt_bool q 0) eqn:L.
  - apply Qlt_bool_iff in L. apply rhe_le_Z. change (inject_Z 0) with 0.
    setoid_replace 0 with (0 * inject_Z (10 ^ Z.of_nat p)) by ring.
    apply Qmult_le_compat_r; [apply Qlt_le_weak, L | apply Qlt_le_weak, SP].
  - assert (G : 0 <= q).
    { apply Qnot_lt_le. intros C. apply Qlt_bool_iff in C. congruence. }
    apply rhe_ge_Z. change (inject_Z 0) with 0.
    apply Qmult_le_0_compat; [exact G | apply Qlt_le_weak, SP].
Qed.

(** The number of units is within half a unit of the value. *)
Lemma units_near (p : nat) (q : Q) :
  Qabs (inject_Z (units p q) / inject_Z (10 ^ Z.of_nat p) - q)
  <= (1 # 2) / inject_Z (10 ^ Z.of_nat p).
Proof.
  pose proof (scale_pos p) as SP. unfold units.
  set (s := inject_Z (10 ^ Z.of_nat p)) in *.
  pose proof (rhe_near (q * s)) as [L U].
  set (u := inject_Z (rhe (q * s))) in *.
  assert (NZ : ~ s == 0) by (intros Z0; rewrite Z0 in SP; apply (Qlt_irrefl 0), SP).
  assert (IP : 0 <= / s) by (apply Qlt_le_weak, Qinv_lt_0_compat, SP).
  assert (E : u / s - q == (u - q * s) * / s) by (field; exact NZ).
  rewrite E. clearbody u. set (t := q * s) in *. clearbody t.
  apply Qabs_Qle_condition. split.
  - setoid_replace (- ((1 # 2) / s)) with ((- (1 # 2)) * / s) by (field; exact NZ).
    apply Qmult_le_compat_r; [clear E NZ SP IP; lra | exact IP].
  - unfold Qdiv. apply Qmult_le_compat_r; [clear E NZ SP IP; lra | exact IP].
Qed.

(** The text [format_f] gives for a finite value reads back as its number
    of units of [10^-p]. *)
Lemma read_format_units (p : nat) (grouping : bool) (q : Q) :
  exists v,
    read_f p (format_f p grouping (Fin q)) = Some v
    /\ v == inject_Z (units p q) / inject_Z (10 ^ Z.of_nat p).
Proof.
  unfold format_f, read_f. rewrite list_ascii_of_string_of_list_ascii.
  set (n := Z.to_N (Z.abs (units p q))).
  set (ip := decimal (n / 10 ^ N.of_nat p)).
  set (B := if grouping then group3 ip else ip).
  assert (HB : forallb numeral_char B = true
               /\ filter not_comma B = ip /\ B <> []).
  { pose proof (decimal_digits (n / 10 ^ N.of_nat p)) as D. fold ip in D.
    pose proof (decimal_nonempty (n / 10 ^ N.of_nat p)) as NE. fold ip in NE.
    unfold B. destruct grouping.
    - destruct (group3_spec ip D) as [F [G N]]. auto.
    - destruct (digits_numeral ip D) as [G F]. auto. }
  destruct HB as [HB [HF NE]].
  destruct (read_unsigned_format p n B HB HF) as [v [R V]].
  assert (An : Z.of_N n = Z.abs (units p q)) by (unfold n; rewrite Z2N.id; lia).
  pose proof (units_sign p q) as Sg.
  pose proof (scale_pos p) as SP.
  assert (NZ : ~ inject_Z (10 ^ Z.of_nat p) == 0)
    by (intros Z0; rewrite Z0 in SP; apply (Qlt_irrefl 0), SP).
  destruct (Qlt_bool q 0).
  - cbn [app]. change (Ascii.eqb "-" "-") with true. cbv iota.
    rewrite R. cbn [option_map]. eexists. split; [reflexivity |].
    rewrite V, An, Z.abs_neq by exact Sg. rewrite inject_Z_opp.
    field. exact NZ.
  - cbn [app]. destruct B as [| c B']; [contradiction |].
    cbn [forallb] in HB. apply andb_prop in HB. destruct HB as [Hc _].
    destruct (numeral_char_not_mark c Hc) as [_ M].
    cbn [app]. rewrite M. cbn [app] in R. rewrite R.
    eexists. split; [reflexivity |].
    rewrite V, An, Z.abs_eq by exact Sg. reflexivity.
Qed.

(** The texts Python gives: [format(0.125, ',.2f')] is a tie and goes to the
    even digit; 2.675 and 999999.995 are below the decimal they are written
    as; a negative number that rounds to zero keeps its sign. *)
Example format_f_texts :
  format_f 2 true (Fin (1 # 8)) = "0.12"%string
  /\ format_f 2 true (Fin (3011782250804019 # 1125899906842624)) = "2.67"%string
  /\ format_f 2 true (Fin (8589934549050327 # 8589934592)) = "999,999.99"%string
  /\ format_f 1 false (Fin (8589934549050327 # 8589934592)) = "1000000.0"%string
  /\ format_f 2 true (Fin (5302428716536693 # 4294967296)) = "1,234,567.89"%string
  /\ format_f 2 true (Fin (- 1152921504606847 # 1152921504606846976)) = "-0.00"%string
  /\ format_f 2 true (Fin (- 2469 # 2)) = "-1,234.50"%string
  /\ format_f 1 false (Fin (9 # 4)) = "2.2"%string
  /\ format_f 2 true (Fin 330000) = "330,000.00"%string
  /\ format_f 0 true (Fin (5 # 2)) = "2"%string
  /\ format_f 2 true (Fin 1000000000000000000000)
     = "1,000,000,000,000,000,000,000.00"%string.
Proof. repeat split; vm_compute; reflexivity. Qed.

(** *** The three result panels of the page *)

Section Panels.

(** [str] of a float, which [f"{p}%"] calls; the panels are the same
    whatever text it gives. *)
Variable repr : float -> string.

(** [f"${x:,.2f}"]. *)
Definition dollars (x : float) : string := String "$" (format_f 2 true x).

(** The number a text [f"${x:,.2f}"] shows. *)
Definition read_dollars (s : string) : option Q :=
  match s with
  | String c t => if Ascii.eqb c "$" then read_f 2 t else None
  | EmptyString => None
  end.

(** The texts of the ["details"] dict of one formula (app.py, lines 62-66). *)
Record details_text : Type := {
  Bonus_Threshold_text : string;
  Collections_Above_Threshold_text : string;
  Bonus_Rate_text : string
}.

Definition details_texts (d : details) : details_text :=
  {| Bonus_Threshold_text := dollars (Bonus_Threshold d);
     Collections_Above_Threshold_text := dollars (Collections_Above_Threshold d);
     Bonus_Rate_text := String.append (repr (Bonus_Rate d)) "%" |}.

(** What [display_formula] puts into its container. *)
Record panel : Type := {
  subheader : string;
  markdown : list string;
  metric_label : string;
  metric_value : string;
  info : string
}.

(** [display_formula] (app.py, lines 223-240). *)
Definition display_formula (formula_name : string) (data : formula_result)
    (params : formula_params) (threshold : float) : panel :=
  {| subheader := formula_name;
     markdown :=
       [ "#### Parameters Used"%string;
         String.append "Base Salary: " (dollars (base_salary params));
         String.append "Multiplier: " (format_f 1 false (multiplier params));
         String.append "Bonus %: "
           (String.append (repr (bonus_percentage params)) "%") ];
     metric_label := "Total Compensation";
     metric_value := dollars (total data);
     info := String.append "Bonus Threshold: " (dollars threshold) |}.

(** The results, the thresholds and the three panels (app.py, lines
    212-245). *)
Definition panels (formula1_params formula2_params formula3_params : formula_params)
    (net_collections : float) : outcome (list panel) :=
  results <-
    calculate_compensation formula1_params formula2_params formula3_params
      net_collections ;;
  let threshold1 := mul (base_salary formula1_params) (multiplier formula1_params) in
  let threshold2 := mul (base_salary formula2_params) (multiplier formula2_params) in
  let threshold3 := mul (base_salary formula3_params) (multiplier formula3_params) in
  r1 <- getitem results key1 ;;
  let p1 := display_formula "Formula 1" r1 formula1_params threshold1 in
  r2 <- getitem results key2 ;;
  let p2 := display_formula "Formula 2" r2 formula2_params threshold2 in
  r3 <- getitem results key3 ;;
  let p3 := display_formula "Formula 3" r3 formula3_params threshold3 in
  Returns [p1; p2; p3].

Definition panel_name (s : slot) : string :=
  match s with Slot1 => "Formula 1" | Slot2 => "Formula 2" | Slot3 => "Formula 3" end.

(** What a text [f"${x:,.2f}"] says about [x]: a number within half a cent
    of a finite [x], and [inf], [-inf] or [nan] otherwise. *)
Definition shows (text : string) (x : float) : Prop :=
  match x with
  | Fin q => exists v, read_dollars text = Some v /\ Qabs (v - q) <= 1 # 200
  | PInf => text = "$inf"%string
  | NInf => text = "$-inf"%string
  | NaN => text = "$nan"%string
  end.

Lemma dollars_shows (x : float) : shows (dollars x) x.
Proof.
  destruct x as [q | | |]; try reflexivity.
  destruct (read_format_units 2 true q) as [v [R V]].
  exists v. split; [exact R |].
  rewrite V. eapply Qle_trans; [apply units_near |]. unfold Qle. cbn. lia.
Qed.

(** X15: the text of a finite float with [p] decimals, with or without
    thousands separators, is a numeral that reads back as the value rounded
    to [p] decimals, ties to even, which is within half a unit of the last
    decimal of the value; an infinity and a NaN are spelled [inf], [-inf]
    and [nan], which are not numerals. *)
Theorem formatted_amount_reads_back (p : nat) (grouping : bool) (q : Q) :
  (exists v,
     read_f p (format_f p grouping (Fin q)) = Some v
     /\ v == inject_Z (units p q) / inject_Z (10 ^ Z.of_nat p)
     /\ Qabs (v - q) <= (1 # 2) / inject_Z (10 ^ Z.of_nat p))
  /\ format_f p grouping PInf = "inf"%string
  /\ format_f p grouping NInf = "-inf"%string
  /\ format_f p grouping NaN = "nan"%string
  /\ read_f p "inf" = None /\ read_f p "-inf" = None /\ read_f p "nan" = None.
Proof.
  split; [| repeat split; destruct p; reflexivity].
  destruct (read_format_units p grouping q) as [v [R V]].
  exists v. repeat split; [exact R | exact V |].
  rewrite V. apply units_near.
Qed.

(** X16: the page shows three panels, "Formula 1" to "Formula 3"; the metric
    of each panel shows the total [calculate_compensation] returns for its
    formula, to within half a cent when it is finite and as [$inf], [$-inf]
    or [$nan] otherwise; and its box shows the very text the result's
    ["details"] keep for the bonus threshold, though the page computes that
    threshold a second time (line 215). *)
Theorem panels_show_results (f1 f2 f3 : formula_params) (net_collections : float) :
  exists p1 p2 p3,
    panels f1 f2 f3 net_collections = Returns [p1; p2; p3]
    /\ forall s : slot,
         let pnl := match s with Slot1 => p1 | Slot2 => p2 | Slot3 => p3 end in
         exists r,
           formula_at s f1 f2 f3 net_collections = Returns r
           /\ subheader pnl = panel_name s
           /\ metric_label pnl = "Total Compensation"%string
           /\ shows (metric_value pnl) (total r)
           /\ info pnl
              = String.append "Bonus Threshold: "
                  (Bonus_Threshold_text (details_texts (details_ r))).
Proof.
  unfold panels. rewrite calculate_compensation_eq. cbn [bind getitem].
  do 3 eexists. split; [reflexivity |].
  intros s. exists (entry (params_of s f1 f2 f3) net_collections).
  split; [apply formula_at_eq |].
  destruct s; cbn [params_of]; repeat split; apply dollars_shows.
Qed.

End Panels.

End Display.
